(** * App controller: the reconcile loop and its comparison policy

    A shallow embedding of [controllers.Reconcile], [deploymentEqual] and
    [serviceEqual] together with the part of the Kubernetes object model
    they read and write.  The API server reached through [client.Client]
    is an explicit in-memory store; every client call may be hit by an
    injected fault, and every write that is issued is recorded. *)

From Stdlib Require Import ZArith Lia Ascii String Sorted.
From stdpp Require Import base option list strings gmap.

Local Open Scope string_scope.
Local Open Scope list_scope.

(** ** Machine integers *)

(** Go's [int32] arithmetic wraps around; [wrap32] brings an integer back
    into the signed 32-bit range. *)
Definition wrap32 (z : Z) : Z := ((z + 2 ^ 31) mod 2 ^ 32 - 2 ^ 31)%Z.

Definition MaxInt32 : Z := (2 ^ 31 - 1)%Z.
Definition MaxInt64 : Z := (2 ^ 63 - 1)%Z.
Definition MinInt64 : Z := (- 2 ^ 63)%Z.

(** ** strconv.Atoi, as used by [IntOrString.IntValue] *)

Definition isDigit (c : ascii) : bool :=
  (48 <=? nat_of_ascii c)%nat && (nat_of_ascii c <=? 57)%nat.

Fixpoint parseDigits (s : string) (acc : Z) : option Z :=
  match s with
  | EmptyString => Some acc
  | String c s' =>
      if isDigit c
      then parseDigits s' (10 * acc + (Z.of_nat (nat_of_ascii c) - 48))%Z
      else None
  end.

(** The integer [strconv.Atoi] hands back when its error is dropped
    ([i, _ := strconv.Atoi(s)]): [0] on a syntax error, the clamped value on
    a range error. *)
Definition Atoi (s : string) : Z :=
  match s with
  | EmptyString => 0%Z
  | String c rest =>
      let '(neg, body) :=
        if Ascii.eqb c "-"%char then (true, rest)
        else if Ascii.eqb c "+"%char then (false, rest)
        else (false, s) in
      match body with
      | EmptyString => 0%Z
      | _ =>
          match parseDigits body 0 with
          | None => 0%Z
          | Some n =>
              if neg then Z.max (- n) MinInt64 else Z.min n MaxInt64
          end
      end
  end.

(** ** The object model (metav1, corev1, appsv1, webappv1) *)

Module OwnerReference.
Record t := mk {
    APIVersion : string;
    Kind : string;
    Name : string;
    UID : string;
    Controller : bool;
    BlockOwnerDeletion : bool
  }.
End OwnerReference.

Module ObjectMeta.
Record t := mk {
    Name : string;
    Namespace : string;
    UID : string;
    Labels : gmap string string;
    OwnerReferences : list OwnerReference.t
  }.
Definition withOwnerReferences (m : t) (refs : list OwnerReference.t) : t :=
    mk (Name m) (Namespace m) (UID m) (Labels m) refs.
End ObjectMeta.

Module LabelSelector.
Record t := mk { MatchLabels : gmap string string }.
End LabelSelector.

Module ContainerPort.
Record t := mk {
    Name : string;
    ContainerPort : Z;
    Protocol : string
  }.
End ContainerPort.

Module Container.
Record t := mk {
    Name : string;
    Image : string;
    Ports : list ContainerPort.t
  }.
End Container.

Module PodSpec.
Record t := mk {
    Containers : list Container.t;
    ServiceAccountName : string
  }.
End PodSpec.

Module PodTemplateSpec.
Record t := mk {
    Meta : ObjectMeta.t;
    Spec : PodSpec.t
  }.
End PodTemplateSpec.

Module DeploymentSpec.
(** [Replicas] and [Selector] are pointers in Go: [None] is [nil]. *)
Record t := mk {
    Replicas : option Z;
    Selector : option LabelSelector.t;
    Template : PodTemplateSpec.t;
    MinReadySeconds : Z;
    Paused : bool
  }.
Definition Containers (s : t) : list Container.t :=
    PodSpec.Containers (PodTemplateSpec.Spec (Template s)).
End DeploymentSpec.

Module Deployment.
Record t := mk {
    Meta : ObjectMeta.t;
    Spec : DeploymentSpec.t
  }.
End Deployment.

Module IntOrString.
Inductive Kind := Int | String.
Record t := mk {
    Type_ : Kind;
    IntVal : Z;
    StrVal : string
  }.
(** [intstr.FromInt] on a value that is already an [int32]. *)
Definition FromInt (val : Z) : t := mk Int val "".
(** [IntValue]: the number itself, or the string run through [Atoi]. *)
Definition IntValue (x : t) : Z :=
    match Type_ x with
    | String => Atoi (StrVal x)
    | Int => IntVal x
    end.
End IntOrString.

Module ServicePort.
Record t := mk {
    Name : string;
    Protocol : string;
    Port : Z;
    TargetPort : IntOrString.t;
    NodePort : Z
  }.
End ServicePort.

Module ServiceSpec.
Record t := mk {
    Selector : gmap string string;
    Ports : list ServicePort.t;
    Type_ : string;
    ClusterIP : string
  }.
End ServiceSpec.

Module Service.
Record t := mk {
    Meta : ObjectMeta.t;
    Spec : ServiceSpec.t
  }.
End Service.

Module PodCondition.
Record t := mk {
    Type_ : string;
    Status : string
  }.
End PodCondition.

Module Pod.
Record t := mk {
    Meta : ObjectMeta.t;
    Conditions : list PodCondition.t
  }.
End Pod.

Module AppSpec.
Record t := mk {
    Image : string;
    Replicas : Z;
    Port : Z
  }.
End AppSpec.

Module AppStatus.
Record t := mk {
    Replicas : Z;
    Conditions : list PodCondition.t
  }.
End AppStatus.

Module App.
Record t := mk {
    Meta : ObjectMeta.t;
    Spec : AppSpec.t;
    Status : AppStatus.t
  }.
Definition Name (a : t) : string := ObjectMeta.Name (Meta a).
Definition Namespace (a : t) : string := ObjectMeta.Namespace (Meta a).
End App.

(** Constants of corev1. *)
Definition PodReady : string := "Ready".
Definition ConditionTrue : string := "True".
Definition ProtocolTCP : string := "TCP".
Definition ServiceTypeClusterIP : string := "ClusterIP".

(** ** The partial-equality policy *)

(** [deploymentEqual]: [None] stands for the run-time panic of a nil
    dereference or an index out of range. *)
Definition deploymentEqual (a b : DeploymentSpec.t) : option bool :=
  ra ← DeploymentSpec.Replicas a;
  rb ← DeploymentSpec.Replicas b;
  if negb (ra =? rb)%Z then Some false
  else if negb (length (DeploymentSpec.Containers a)
                  =? length (DeploymentSpec.Containers b))%nat then Some false
  else if (0 <? length (DeploymentSpec.Containers a))%nat then
    a0 ← DeploymentSpec.Containers a !! 0%nat;
    b0 ← DeploymentSpec.Containers b !! 0%nat;
    if negb (String.eqb (Container.Image a0) (Container.Image b0)) then Some false
    else if negb (length (Container.Ports a0) =? length (Container.Ports b0))%nat
    then Some false
    else if (0 <? length (Container.Ports a0))%nat then
      pa ← Container.Ports a0 !! 0%nat;
      pb ← Container.Ports b0 !! 0%nat;
      if negb (ContainerPort.ContainerPort pa =? ContainerPort.ContainerPort pb)%Z
      then Some false
      else Some true
    else Some true
  else Some true.

(** [serviceEqual]: both index expressions sit under both length guards. *)
Definition serviceEqual (a b : ServiceSpec.t) : bool :=
  if negb (String.eqb (ServiceSpec.Type_ a) (ServiceSpec.Type_ b)) then false
  else if negb (length (ServiceSpec.Ports a) =? length (ServiceSpec.Ports b))%nat
  then false
  else
    match ServiceSpec.Ports a, ServiceSpec.Ports b with
    | a0 :: _, b0 :: _ =>
        if negb (ServicePort.Port a0 =? ServicePort.Port b0)%Z
           || negb (IntOrString.IntValue (ServicePort.TargetPort a0)
                    =? IntOrString.IntValue (ServicePort.TargetPort b0))%Z
           || negb (String.eqb (ServicePort.Protocol a0) (ServicePort.Protocol b0))
        then false
        else true
    | _, _ => true
    end.

(** ** Counting ready pods *)

Definition isReadyCondition (c : PodCondition.t) : bool :=
  String.eqb (PodCondition.Type_ c) PodReady
  && String.eqb (PodCondition.Status c) ConditionTrue.

(** The inner loop over one pod's conditions: increment and [break] at the
    first ready condition. *)
Fixpoint countConditions (conds : list PodCondition.t) (readyPods : Z) : Z :=
  match conds with
  | [] => readyPods
  | condition :: rest =>
      if isReadyCondition condition
      then wrap32 (readyPods + 1)
      else countConditions rest readyPods
  end.

(** The outer loop over [pods.Items], threading the [int32] counter. *)
Fixpoint countPods (items : list Pod.t) (readyPods : Z) : Z :=
  match items with
  | [] => readyPods
  | pod :: rest => countPods rest (countConditions (Pod.Conditions pod) readyPods)
  end.

Definition readyPods (items : list Pod.t) : Z := countPods items 0%Z.

(** A pod is ready when one of its conditions is a true "Ready". *)
Definition podIsReady (pod : Pod.t) : bool :=
  existsb isReadyCondition (Pod.Conditions pod).

(** ** Desired state (steps 2 and 5 of [Reconcile]) *)

Definition controllerLabels (app : App.t) : gmap string string :=
  {[ "app" := App.Name app; "controller" := "app-controller" ]}.

Definition appLabel (app : App.t) : gmap string string :=
  {[ "app" := App.Name app ]}.

(** [fmt.Sprintf("%s-deployment", app.Name)] *)
Definition deploymentName (app : App.t) : string :=
  String.append (App.Name app) "-deployment".

(** [fmt.Sprintf("%s-service", app.Name)] *)
Definition serviceName (app : App.t) : string :=
  String.append (App.Name app) "-service".

Definition desiredDeployment (app : App.t) : Deployment.t :=
  Deployment.mk
    (ObjectMeta.mk (deploymentName app) (App.Namespace app) ""
       (controllerLabels app) [])
    (DeploymentSpec.mk
       (Some (AppSpec.Replicas (App.Spec app)))
       (Some (LabelSelector.mk (appLabel app)))
       (PodTemplateSpec.mk
          (ObjectMeta.mk "" "" "" (appLabel app) [])
          (PodSpec.mk
             [ Container.mk "app-container" (AppSpec.Image (App.Spec app))
                 [ ContainerPort.mk "" (AppSpec.Port (App.Spec app)) "" ] ]
             ""))
       0%Z false).

Definition desiredService (app : App.t) : Service.t :=
  Service.mk
    (ObjectMeta.mk (serviceName app) (App.Namespace app) ""
       (controllerLabels app) [])
    (ServiceSpec.mk
       (appLabel app)
       [ ServicePort.mk "" ProtocolTCP (AppSpec.Port (App.Spec app))
           (IntOrString.FromInt (AppSpec.Port (App.Spec app))) 0%Z ]
       ServiceTypeClusterIP
       "").

(** ** Errors *)

(** What can go wrong at the API server besides absence. *)
Inductive Fault := ServerTimeout | ServiceUnavailable | Conflict.

Inductive Error :=
  | ErrNotFound
  | ErrAlreadyExists
  | ErrStore (f : Fault)
  | ErrOwnerLink (reason : string).

(** [errors.IsNotFound] *)
Definition IsNotFound (err : Error) : bool :=
  match err with ErrNotFound => true | _ => false end.

(** ** Ownership: [ctrl.SetControllerReference] *)

(** The scheme only matters through the group-version-kind it resolves the
    App type to, if any. *)
Record Scheme := mkScheme { gvkForApp : option (string * string) }.

Definition referSameObject (a b : OwnerReference.t) : bool :=
  String.eqb (OwnerReference.APIVersion a) (OwnerReference.APIVersion b)
  && String.eqb (OwnerReference.Kind a) (OwnerReference.Kind b)
  && String.eqb (OwnerReference.Name a) (OwnerReference.Name b).

Fixpoint upsertOwnerRef (ref : OwnerReference.t) (refs : list OwnerReference.t)
  : list OwnerReference.t :=
  match refs with
  | [] => [ref]
  | r :: rest =>
      if referSameObject r ref then ref :: rest else r :: upsertOwnerRef ref rest
  end.

Definition SetControllerReference (owner : App.t) (controlled : ObjectMeta.t)
    (scheme : Scheme) : Error + ObjectMeta.t :=
  let ownerNs := App.Namespace owner in
  if negb (String.eqb ownerNs "")
     && String.eqb (ObjectMeta.Namespace controlled) ""
  then inl (ErrOwnerLink "cluster-scoped resource must not have a namespace-scoped owner")
  else if negb (String.eqb ownerNs "")
          && negb (String.eqb ownerNs (ObjectMeta.Namespace controlled))
  then inl (ErrOwnerLink "cross-namespace owner references are disallowed")
  else
    match gvkForApp scheme with
    | None => inl (ErrOwnerLink "no kind is registered for the owner type")
    | Some (apiVersion, kind) =>
        let ref := OwnerReference.mk apiVersion kind (App.Name owner)
                     (ObjectMeta.UID (App.Meta owner)) true true in
        match List.find OwnerReference.Controller
                (ObjectMeta.OwnerReferences controlled) with
        | Some existing =>
            if negb (referSameObject existing ref)
            then inl (ErrOwnerLink "object is already owned by another controller")
            else inr (ObjectMeta.withOwnerReferences controlled
                        (upsertOwnerRef ref (ObjectMeta.OwnerReferences controlled)))
        | None =>
            inr (ObjectMeta.withOwnerReferences controlled
                   (upsertOwnerRef ref (ObjectMeta.OwnerReferences controlled)))
        end
    end.

(** ** The resource store behind [client.Client] *)

(** Objects are keyed by (namespace, name). *)
Definition Key : Type := string * string.

Record NamespacedName := mkNamespacedName { nnNamespace : string; nnName : string }.

Definition keyOf (n : NamespacedName) : Key := (nnNamespace n, nnName n).
Definition metaKey (m : ObjectMeta.t) : Key :=
  (ObjectMeta.Namespace m, ObjectMeta.Name m).

Record Store := mkStore {
  apps : gmap Key App.t;
  deployments : gmap Key Deployment.t;
  services : gmap Key Service.t;
  pods : list Pod.t
}.

Definition withApps (st : Store) (m : gmap Key App.t) : Store :=
  mkStore m (deployments st) (services st) (pods st).
Definition withDeployments (st : Store) (m : gmap Key Deployment.t) : Store :=
  mkStore (apps st) m (services st) (pods st).
Definition withServices (st : Store) (m : gmap Key Service.t) : Store :=
  mkStore (apps st) (deployments st) m (pods st).

(** The API server files every object under its own namespace and name. *)
Definition wfStore (st : Store) : Prop :=
  (∀ k a, apps st !! k = Some a → metaKey (App.Meta a) = k)
  ∧ (∀ k d, deployments st !! k = Some d → metaKey (Deployment.Meta d) = k)
  ∧ (∀ k s, services st !! k = Some s → metaKey (Service.Meta s) = k).

(** The writes a reconcile pass can send to the store. *)
Inductive WriteOp :=
  | DeploymentCreate (d : Deployment.t)
  | DeploymentUpdate (d : Deployment.t)
  | ServiceCreate (s : Service.t)
  | ServiceUpdate (s : Service.t)
  | AppStatusUpdate (a : App.t).

(** A request that was issued, with the error it came back with. *)
Record Event := mkEvent { request : WriteOp; failure : option Error }.

(** The world of one pass: the store, the faults still to strike (one entry
    is consumed by each client call; [None] lets the call through) and the
    log of writes issued so far. *)
Record World := mkWorld {
  store : Store;
  faults : list (option Fault);
  trace : list Event
}.

Definition Client (A : Type) : Type := World → A * World.

Module client.

Definition nextFault : Client (option Fault) := λ w,
    match faults w with
    | [] => (None, w)
    | f :: rest => (f, mkWorld (store w) rest (trace w))
    end.

Definition record (rq : WriteOp) (err : option Error) (st : Store)
      (w : World) : World :=
    mkWorld st (faults w) (trace w ++ [mkEvent rq err]).

Definition GetApp (key : Key) : Client (Error + App.t) := λ w,
    let '(f, w) := nextFault w in
    match f with
    | Some f => (inl (ErrStore f), w)
    | None =>
        match apps (store w) !! key with
        | None => (inl ErrNotFound, w)
        | Some a => (inr a, w)
        end
    end.

Definition GetDeployment (key : Key) : Client (Error + Deployment.t) := λ w,
    let '(f, w) := nextFault w in
    match f with
    | Some f => (inl (ErrStore f), w)
    | None =>
        match deployments (store w) !! key with
        | None => (inl ErrNotFound, w)
        | Some d => (inr d, w)
        end
    end.

Definition GetService (key : Key) : Client (Error + Service.t) := λ w,
    let '(f, w) := nextFault w in
    match f with
    | Some f => (inl (ErrStore f), w)
    | None =>
        match services (store w) !! key with
        | None => (inl ErrNotFound, w)
        | Some s => (inr s, w)
        end
    end.

Definition CreateDeployment (d : Deployment.t) : Client (option Error) := λ w,
    let '(f, w) := nextFault w in
    let st := store w in
    let k := metaKey (Deployment.Meta d) in
    match f with
    | Some f => (Some (ErrStore f), record (DeploymentCreate d) (Some (ErrStore f)) st w)
    | None =>
        match deployments st !! k with
        | Some _ => (Some ErrAlreadyExists,
                     record (DeploymentCreate d) (Some ErrAlreadyExists) st w)
        | None =>
            (None, record (DeploymentCreate d) None
                     (withDeployments st (<[k := d]> (deployments st))) w)
        end
    end.

Definition UpdateDeployment (d : Deployment.t) : Client (option Error) := λ w,
    let '(f, w) := nextFault w in
    let st := store w in
    let k := metaKey (Deployment.Meta d) in
    match f with
    | Some f => (Some (ErrStore f), record (DeploymentUpdate d) (Some (ErrStore f)) st w)
    | None =>
        match deployments st !! k with
        | None => (Some ErrNotFound, record (DeploymentUpdate d) (Some ErrNotFound) st w)
        | Some _ =>
            (None, record (DeploymentUpdate d) None
                     (withDeployments st (<[k := d]> (deployments st))) w)
        end
    end.

Definition CreateService (s : Service.t) : Client (option Error) := λ w,
    let '(f, w) := nextFault w in
    let st := store w in
    let k := metaKey (Service.Meta s) in
    match f with
    | Some f => (Some (ErrStore f), record (ServiceCreate s) (Some (ErrStore f)) st w)
    | None =>
        match services st !! k with
        | Some _ => (Some ErrAlreadyExists,
                     record (ServiceCreate s) (Some ErrAlreadyExists) st w)
        | None =>
            (None, record (ServiceCreate s) None
                     (withServices st (<[k := s]> (services st))) w)
        end
    end.

Definition UpdateService (s : Service.t) : Client (option Error) := λ w,
    let '(f, w) := nextFault w in
    let st := store w in
    let k := metaKey (Service.Meta s) in
    match f with
    | Some f => (Some (ErrStore f), record (ServiceUpdate s) (Some (ErrStore f)) st w)
    | None =>
        match services st !! k with
        | None => (Some ErrNotFound, record (ServiceUpdate s) (Some ErrNotFound) st w)
        | Some _ =>
            (None, record (ServiceUpdate s) None
                     (withServices st (<[k := s]> (services st))) w)
        end
    end.

(** [client.InNamespace] and [client.MatchingLabels]. *)
Definition matches (ns : string) (sel : gmap string string) (p : Pod.t) : bool :=
    String.eqb (ObjectMeta.Namespace (Pod.Meta p)) ns
    && bool_decide (map_Forall (λ k v, ObjectMeta.Labels (Pod.Meta p) !! k = Some v) sel).

Definition ListPods (ns : string) (sel : gmap string string)
    : Client (Error + list Pod.t) := λ w,
    let '(f, w) := nextFault w in
    match f with
    | Some f => (inl (ErrStore f), w)
    | None => (inr (List.filter (matches ns sel) (pods (store w))), w)
    end.

(** [r.Status().Update]: only the status of the stored App is replaced. *)
Definition StatusUpdate (a : App.t) : Client (option Error) := λ w,
    let '(f, w) := nextFault w in
    let st := store w in
    let k := metaKey (App.Meta a) in
    match f with
    | Some f => (Some (ErrStore f), record (AppStatusUpdate a) (Some (ErrStore f)) st w)
    | None =>
        match apps st !! k with
        | None => (Some ErrNotFound, record (AppStatusUpdate a) (Some ErrNotFound) st w)
        | Some stored =>
            (None, record (AppStatusUpdate a) None
                     (withApps st
                        (<[k := App.mk (App.Meta stored) (App.Spec stored)
                                  (App.Status a)]> (apps st))) w)
        end
    end.

End client.

(** ** The reconcile pass *)

Module Result.
(** [ctrl.Result]; [RequeueAfter] is a [time.Duration], in nanoseconds. *)
Record t := mk { Requeue : bool; RequeueAfter : Z }.
Definition empty : t := mk false 0%Z.
End Result.

(** [time.Second] *)
Definition Second : Z := 1000000000%Z.

(** How far a block of the pass got: it goes on with a value, it has hit a
    [return], or it has panicked. *)
Inductive Step (A : Type) :=
  | Next (a : A)
  | Return (res : Result.t) (err : option Error)
  | Panic.
Arguments Next {A} a.
Arguments Return {A} res err.
Arguments Panic {A}.

Definition M (A : Type) : Type := World → Step A * World.

#[global] Instance M_ret : MRet M := λ A a w, (Next a, w).
#[global] Instance M_bind : MBind M := λ A B f m w,
  match m w with
  | (Next a, w') => f a w'
  | (Return res err, w') => (Return res err, w')
  | (Panic, w') => (Panic, w')
  end.

(** A client call inside the pass. *)
Definition call {A} (c : Client A) : M A := λ w,
  let '(a, w') := c w in (Next a, w').

(** [return res, err] *)
Definition exit {A} (res : Result.t) (err : option Error) : M A := λ w,
  (Return res err, w).

(** A value whose computation may panic. *)
Definition orPanic {A} (o : option A) : M A := λ w,
  match o with
  | Some a => (Next a, w)
  | None => (Panic, w)
  end.

Record AppReconciler := mkAppReconciler { scheme : Scheme }.

(** Steps 2 to 4: the Deployment. *)
Definition reconcileDeployment (r : AppReconciler) (app : App.t) : M unit :=
  let desired := desiredDeployment app in
  match SetControllerReference app (Deployment.Meta desired) (scheme r) with
  | inl err => exit Result.empty (Some err)
  | inr meta =>
      let desired := Deployment.mk meta (Deployment.Spec desired) in
      got ← call (client.GetDeployment (metaKey (Deployment.Meta desired)));
      match got with
      | inl err =>
          if IsNotFound err then
            err ← call (client.CreateDeployment desired);
            match err with
            | Some err => exit Result.empty (Some err)
            | None => mret tt
            end
          else exit Result.empty (Some err)
      | inr found =>
          equal ← orPanic (deploymentEqual (Deployment.Spec found)
                             (Deployment.Spec desired));
          if negb equal then
            let found := Deployment.mk (Deployment.Meta found)
                           (Deployment.Spec desired) in
            err ← call (client.UpdateDeployment found);
            match err with
            | Some err => exit Result.empty (Some err)
            | None => mret tt
            end
          else mret tt
      end
  end.

(** Steps 5 to 7: the Service. *)
Definition reconcileService (r : AppReconciler) (app : App.t) : M unit :=
  let desired := desiredService app in
  match SetControllerReference app (Service.Meta desired) (scheme r) with
  | inl err => exit Result.empty (Some err)
  | inr meta =>
      let desired := Service.mk meta (Service.Spec desired) in
      got ← call (client.GetService (metaKey (Service.Meta desired)));
      match got with
      | inl err =>
          if IsNotFound err then
            err ← call (client.CreateService desired);
            match err with
            | Some err => exit Result.empty (Some err)
            | None => mret tt
            end
          else exit Result.empty (Some err)
      | inr found =>
          if negb (serviceEqual (Service.Spec found) (Service.Spec desired)) then
            let found := Service.mk (Service.Meta found) (Service.Spec desired) in
            err ← call (client.UpdateService found);
            match err with
            | Some err => exit Result.empty (Some err)
            | None => mret tt
            end
          else mret tt
      end
  end.

Definition withStatusReplicas (app : App.t) (n : Z) : App.t :=
  App.mk (App.Meta app) (App.Spec app)
    (AppStatus.mk n (AppStatus.Conditions (App.Status app))).

(** Step 8, once the pods are listed: count, then write only on change. *)
Definition updateStatus (app : App.t) (items : list Pod.t) : M unit :=
  let ready := readyPods items in
  if negb (AppStatus.Replicas (App.Status app) =? ready)%Z then
    let app := withStatusReplicas app ready in
    err ← call (client.StatusUpdate app);
    match err with
    | Some err => exit Result.empty (Some err)
    | None => mret tt
    end
  else mret tt.

(** Step 8: list the pods of the App and refresh its status. *)
Definition reconcileStatus (app : App.t) : M unit :=
  got ← call (client.ListPods (App.Namespace app) (appLabel app));
  match got with
  | inl err => exit Result.empty (Some err)
  | inr items => updateStatus app items
  end.

Definition reconcileSteps (r : AppReconciler) (req : NamespacedName) : M unit :=
  got ← call (client.GetApp (keyOf req));
  match got with
  | inl err =>
      if IsNotFound err then exit Result.empty None
      else exit Result.empty (Some err)
  | inr app =>
      reconcileDeployment r app;;
      reconcileService r app;;
      reconcileStatus app;;
      exit (Result.mk false (30 * Second)) None
  end.

(** What the caller of [Reconcile] sees. *)
Inductive Outcome :=
  | Returned (res : Result.t) (err : option Error)
  | Panicked.

Definition Reconcile (r : AppReconciler) (req : NamespacedName)
  : World → Outcome * World := λ w,
  match reconcileSteps r req w with
  | (Return res err, w') => (Returned res err, w')
  | (Next _, w') => (Returned Result.empty None, w') (* never reached *)
  | (Panic, w') => (Panicked, w')
  end.

(** The writes a pass issued, given the world before and after it. *)
Definition issued (before after : World) : list Event :=
  drop (length (trace before)) (trace after).

(** ** Vocabulary of the statements *)

Definition deploymentKey (app : App.t) : Key :=
  (App.Namespace app, deploymentName app).
Definition serviceKey (app : App.t) : Key :=
  (App.Namespace app, serviceName app).

(** What [deploymentEqual] looks at: the replica count, the number of
    containers and, of the first container, the image, the number of ports
    and the first port's number. *)
Definition comparableDeployment (a : DeploymentSpec.t)
  : option Z * nat * option (string * nat * option Z) :=
  (DeploymentSpec.Replicas a,
   length (DeploymentSpec.Containers a),
   (λ c, (Container.Image c, length (Container.Ports c),
          ContainerPort.ContainerPort <$> head (Container.Ports c)))
     <$> head (DeploymentSpec.Containers a)).

(** What [serviceEqual] looks at: the type, the number of ports and, of the
    first port, the port number, the numeric target port and the protocol. *)
Definition comparableService (a : ServiceSpec.t)
  : string * nat * option (Z * Z * string) :=
  (ServiceSpec.Type_ a,
   length (ServiceSpec.Ports a),
   (λ p, (ServicePort.Port p, IntOrString.IntValue (ServicePort.TargetPort p),
          ServicePort.Protocol p))
     <$> head (ServiceSpec.Ports a)).

(** The same decision, written on the comparable part alone. *)
Definition deploymentPolicy
    (va vb : option Z * nat * option (string * nat * option Z)) : option bool :=
  let '(ra, na, ca) := va in
  let '(rb, nb, cb) := vb in
  ra ← ra; rb ← rb;
  Some (bool_decide (ra = rb ∧ na = nb ∧ ca = cb)).

(** The Service decision, written on the comparable part alone. *)
Definition servicePolicy (va vb : string * nat * option (Z * Z * string)) : bool :=
  bool_decide (va = vb).

Definition isStatusWrite (ev : Event) : Prop :=
  ∃ a, request ev = AppStatusUpdate a.

Definition isServiceWrite (ev : Event) : Prop :=
  ∃ s, request ev = ServiceCreate s ∨ request ev = ServiceUpdate s.

(** The pods the status step lists for [app]. *)
Definition podsOf (app : App.t) (st : Store) : list Pod.t :=
  List.filter (client.matches (App.Namespace app) (appLabel app)) (pods st).

(** The write the Deployment step sends from store [st], if it sends one:
    a create of the owned desired object when none is stored, or an update
    of the stored object carrying the desired spec when the policy finds a
    difference. *)
Definition deploymentWrite (r : AppReconciler) (app : App.t) (st : Store)
    (rq : WriteOp) (d : Deployment.t) : Prop :=
  (∃ meta,
      SetControllerReference app (Deployment.Meta (desiredDeployment app)) (scheme r)
        = inr meta
      ∧ deployments st !! deploymentKey app = None
      ∧ d = Deployment.mk meta (Deployment.Spec (desiredDeployment app))
      ∧ rq = DeploymentCreate d)
  ∨ (∃ found,
      deployments st !! deploymentKey app = Some found
      ∧ deploymentEqual (Deployment.Spec found)
          (Deployment.Spec (desiredDeployment app)) = Some false
      ∧ d = Deployment.mk (Deployment.Meta found)
              (Deployment.Spec (desiredDeployment app))
      ∧ rq = DeploymentUpdate d).

Definition serviceWrite (r : AppReconciler) (app : App.t) (st : Store)
    (rq : WriteOp) (s : Service.t) : Prop :=
  (∃ meta,
      SetControllerReference app (Service.Meta (desiredService app)) (scheme r)
        = inr meta
      ∧ services st !! serviceKey app = None
      ∧ s = Service.mk meta (Service.Spec (desiredService app))
      ∧ rq = ServiceCreate s)
  ∨ (∃ found,
      services st !! serviceKey app = Some found
      ∧ serviceEqual (Service.Spec found) (Service.Spec (desiredService app)) = false
      ∧ s = Service.mk (Service.Meta found) (Service.Spec (desiredService app))
      ∧ rq = ServiceUpdate s).

(** The ways through the Deployment step, from world [w]. *)
Inductive DeploymentPath (r : AppReconciler) (app : App.t) (w : World)
  : Step unit → World → Prop :=
  | DeploymentAbort err w' :
      store w' = store w → trace w' = trace w →
      DeploymentPath r app w (Return Result.empty (Some err)) w'
  | DeploymentPanic found w' :
      store w' = store w → trace w' = trace w →
      deployments (store w) !! deploymentKey app = Some found →
      deploymentEqual (Deployment.Spec found)
        (Deployment.Spec (desiredDeployment app)) = None →
      DeploymentPath r app w Panic w'
  | DeploymentUpToDate found w' :
      store w' = store w → trace w' = trace w →
      deployments (store w) !! deploymentKey app = Some found →
      deploymentEqual (Deployment.Spec found)
        (Deployment.Spec (desiredDeployment app)) = Some true →
      DeploymentPath r app w (Next tt) w'
  | DeploymentWriteFailed rq d err w' :
      deploymentWrite r app (store w) rq d →
      store w' = store w → trace w' = trace w ++ [mkEvent rq (Some err)] →
      DeploymentPath r app w (Return Result.empty (Some err)) w'
  | DeploymentWritten rq d w' :
      deploymentWrite r app (store w) rq d →
      store w' = withDeployments (store w)
                   (<[metaKey (Deployment.Meta d) := d]> (deployments (store w))) →
      trace w' = trace w ++ [mkEvent rq None] →
      DeploymentPath r app w (Next tt) w'.

(** The ways through the Service step. *)
Inductive ServicePath (r : AppReconciler) (app : App.t) (w : World)
  : Step unit → World → Prop :=
  | ServiceAbort err w' :
      store w' = store w → trace w' = trace w →
      ServicePath r app w (Return Result.empty (Some err)) w'
  | ServiceUpToDate found w' :
      store w' = store w → trace w' = trace w →
      services (store w) !! serviceKey app = Some found →
      serviceEqual (Service.Spec found) (Service.Spec (desiredService app)) = true →
      ServicePath r app w (Next tt) w'
  | ServiceWriteFailed rq s err w' :
      serviceWrite r app (store w) rq s →
      store w' = store w → trace w' = trace w ++ [mkEvent rq (Some err)] →
      ServicePath r app w (Return Result.empty (Some err)) w'
  | ServiceWritten rq s w' :
      serviceWrite r app (store w) rq s →
      store w' = withServices (store w)
                   (<[metaKey (Service.Meta s) := s]> (services (store w))) →
      trace w' = trace w ++ [mkEvent rq None] →
      ServicePath r app w (Next tt) w'.

(** The ways through the status step. *)
Inductive StatusPath (app : App.t) (w : World) : Step unit → World → Prop :=
  | StatusAbort err w' :
      store w' = store w → trace w' = trace w →
      StatusPath app w (Return Result.empty (Some err)) w'
  | StatusUnchanged w' :
      store w' = store w → trace w' = trace w →
      AppStatus.Replicas (App.Status app) = readyPods (podsOf app (store w)) →
      StatusPath app w (Next tt) w'
  | StatusWriteFailed err w' :
      AppStatus.Replicas (App.Status app) ≠ readyPods (podsOf app (store w)) →
      store w' = store w →
      trace w' = trace w
                 ++ [mkEvent (AppStatusUpdate
                                (withStatusReplicas app
                                   (readyPods (podsOf app (store w)))))
                       (Some err)] →
      StatusPath app w (Return Result.empty (Some err)) w'
  | StatusWritten stored w' :
      AppStatus.Replicas (App.Status app) ≠ readyPods (podsOf app (store w)) →
      apps (store w) !! metaKey (App.Meta app) = Some stored →
      store w' = withApps (store w)
                   (<[metaKey (App.Meta app) :=
                        App.mk (App.Meta stored) (App.Spec stored)
                          (App.Status (withStatusReplicas app
                                         (readyPods (podsOf app (store w)))))]>
                      (apps (store w))) →
      trace w' = trace w
                 ++ [mkEvent (AppStatusUpdate
                                (withStatusReplicas app
                                   (readyPods (podsOf app (store w)))))
                       None] →
      StatusPath app w (Next tt) w'.

Definition outcomeOf (s : Step unit) : Outcome :=
  match s with
  | Next _ => Returned Result.empty None
  | Return res err => Returned res err
  | Panic => Panicked
  end.

(** The ways through a whole pass: where it stopped, and through which path
    of each step it came there. *)
Inductive Pass (r : AppReconciler) (req : NamespacedName) (w : World)
  : Outcome → World → Prop :=
  | PassAbsent w' :
      apps (store w) !! keyOf req = None →
      store w' = store w → trace w' = trace w →
      Pass r req w (Returned Result.empty None) w'
  | PassFetchFailed f w' :
      store w' = store w → trace w' = trace w →
      Pass r req w (Returned Result.empty (Some (ErrStore f))) w'
  | PassStoppedAtDeployment app w0 s w1 :
      apps (store w) !! keyOf req = Some app →
      store w0 = store w → trace w0 = trace w →
      DeploymentPath r app w0 s w1 → s ≠ Next tt →
      Pass r req w (outcomeOf s) w1
  | PassStoppedAtService app w0 w1 s w2 :
      apps (store w) !! keyOf req = Some app →
      store w0 = store w → trace w0 = trace w →
      DeploymentPath r app w0 (Next tt) w1 →
      ServicePath r app w1 s w2 → s ≠ Next tt →
      Pass r req w (outcomeOf s) w2
  | PassStoppedAtStatus app w0 w1 w2 s w3 :
      apps (store w) !! keyOf req = Some app →
      store w0 = store w → trace w0 = trace w →
      DeploymentPath r app w0 (Next tt) w1 →
      ServicePath r app w1 (Next tt) w2 →
      StatusPath app w2 s w3 → s ≠ Next tt →
      Pass r req w (outcomeOf s) w3
  | PassDone app w0 w1 w2 w3 :
      apps (store w) !! keyOf req = Some app →
      store w0 = store w → trace w0 = trace w →
      DeploymentPath r app w0 (Next tt) w1 →
      ServicePath r app w1 (Next tt) w2 →
      StatusPath app w2 (Next tt) w3 →
      Pass r req w (Returned (Result.mk false (30 * Second)) None) w3.

(** The state a finished pass leaves for an App that exists: both children
    are stored and pass the policy, and the stored status carries the ready
    count. *)
Definition Converged (app : App.t) (st : Store) : Prop :=
  (∃ d, deployments st !! deploymentKey app = Some d
        ∧ deploymentEqual (Deployment.Spec d)
            (Deployment.Spec (desiredDeployment app)) = Some true)
  ∧ (∃ s, services st !! serviceKey app = Some s
          ∧ serviceEqual (Service.Spec s) (Service.Spec (desiredService app)) = true)
  ∧ (∃ a, apps st !! metaKey (App.Meta app) = Some a
          ∧ App.Meta a = App.Meta app ∧ App.Spec a = App.Spec app
          ∧ AppStatus.Replicas (App.Status a) = readyPods (podsOf app st)).

(** The place of a write in the order of the pass: the Deployment first,
    then the Service, then the status. *)
Definition writeRank (rq : WriteOp) : nat :=
  match rq with
  | DeploymentCreate _ | DeploymentUpdate _ => 0
  | ServiceCreate _ | ServiceUpdate _ => 1
  | AppStatusUpdate _ => 2
  end.

(** No fault is waiting for any client call of the pass. *)
Definition calm (w : World) : Prop := Forall (λ f, f = None) (faults w).

(** The owner reference [SetControllerReference] builds for [app]. *)
Definition controllerRef (apiVersion kind : string) (app : App.t) : OwnerReference.t :=
  OwnerReference.mk apiVersion kind (App.Name app)
    (ObjectMeta.UID (App.Meta app)) true true.

(** ** A concrete cluster, used to run the model *)

Module Demo.

Definition webApp (statusReplicas : Z) : App.t :=
    App.mk (ObjectMeta.mk "web" "default" "uid-1" ∅ [])
      (AppSpec.mk "nginx:1.0" 3 8080)
      (AppStatus.mk statusReplicas []).

Definition req : NamespacedName := mkNamespacedName "default" "web".

Definition reconciler : AppReconciler :=
    mkAppReconciler (mkScheme (Some ("webapp.example.com/v1", "App"))).

Definition ready : PodCondition.t := PodCondition.mk "Ready" "True".
Definition notReady : PodCondition.t := PodCondition.mk "Ready" "False".
Definition scheduled : PodCondition.t := PodCondition.mk "PodScheduled" "True".

Definition pod (name : string) (conds : list PodCondition.t) : Pod.t :=
    Pod.mk (ObjectMeta.mk name "default" "" {[ "app" := "web" ]} []) conds.

(** Three pods of the App, two of them ready; the second one reports its
    readiness twice. *)
Definition threePods : list Pod.t :=
    [ pod "web-a" [scheduled; ready];
      pod "web-b" [ready; scheduled; ready];
      pod "web-c" [scheduled; notReady] ].

Definition stranger : Pod.t :=
    Pod.mk (ObjectMeta.mk "db-0" "default" "" {[ "app" := "db" ]} []) [ready].

(** A Deployment left behind by someone else: five replicas, and fields the
    controller never sets. *)
Definition driftedDeployment : Deployment.t :=
    Deployment.mk
      (ObjectMeta.mk "web-deployment" "default" "uid-7"
         {[ "app" := "web"; "team" := "payments" ]} [])
      (DeploymentSpec.mk (Some 5%Z) (Some (LabelSelector.mk {[ "app" := "web" ]}))
         (PodTemplateSpec.mk (ObjectMeta.mk "" "" "" {[ "app" := "web" ]} [])
            (PodSpec.mk
               [ Container.mk "app-container" "nginx:1.0"
                   [ ContainerPort.mk "http" 8080 "TCP" ] ]
               "web-sa"))
         10%Z false).

Definition freshStore (statusReplicas : Z) : Store :=
    mkStore {[ keyOf req := webApp statusReplicas ]} ∅ ∅ (stranger :: threePods).

Definition driftedStore : Store :=
    mkStore {[ keyOf req := webApp 2 ]}
      {[ metaKey (Deployment.Meta driftedDeployment) := driftedDeployment ]}
      ∅ (stranger :: threePods).

Definition emptyStore : Store := mkStore ∅ ∅ ∅ [].

Definition world (st : Store) (fs : list (option Fault)) : World :=
    mkWorld st fs [].

End Demo.

(** The pass from step 2 on, once the App is fetched. *)
Definition reconcileFetched (r : AppReconciler) (app : App.t) : M unit :=
  reconcileDeployment r app;;
  reconcileService r app;;
  reconcileStatus app;;
  exit (Result.mk false (30 * Second)) None.

(** ** Corner cases of the cluster *)

Module Corner.

(** A stored Deployment whose replica pointer is nil. *)
Definition bareDeployment : Deployment.t :=
  Deployment.mk (ObjectMeta.mk "web-deployment" "default" "uid-9" ∅ [])
    (DeploymentSpec.mk None None
       (PodTemplateSpec.mk (ObjectMeta.mk "" "" "" ∅ []) (PodSpec.mk [] ""))
       0%Z false).

Definition bareStore : Store :=
  mkStore {[ keyOf Demo.req := Demo.webApp 0 ]}
    {[ metaKey (Deployment.Meta bareDeployment) := bareDeployment ]}
    ∅ [].

(** A reconciler whose scheme does not know the App type. *)
Definition unregistered : AppReconciler := mkAppReconciler (mkScheme None).

End Corner.

(** * Properties *)

(** ** Integers *)

Lemma wrap32_small (z : Z) :
  (- 2 ^ 31 ≤ z < 2 ^ 31)%Z → wrap32 z = z.
Proof.
  intros Hz. unfold wrap32. rewrite Z.mod_small; lia.
Qed.

(** ** The Deployment policy *)

(** With both replica counts present, [deploymentEqual] never panics: every
    index it takes is covered by a length test. *)
Lemma deploymentEqual_total (a b : DeploymentSpec.t) :
  deploymentEqual a b = None
  ↔ DeploymentSpec.Replicas a = None ∨ DeploymentSpec.Replicas b = None.
Proof.
  unfold deploymentEqual.
  destruct (DeploymentSpec.Replicas a) as [ra|]; simpl; [|naive_solver].
  destruct (DeploymentSpec.Replicas b) as [rb|]; simpl; [|naive_solver].
  split; [|naive_solver]. intros H. exfalso. revert H.
  destruct (ra =? rb)%Z; simpl; [|done].
  destruct (Nat.eqb_spec (length (DeploymentSpec.Containers a))
              (length (DeploymentSpec.Containers b))) as [Hlen|]; simpl; [|done].
  destruct (DeploymentSpec.Containers a) as [|a0 ?],
           (DeploymentSpec.Containers b) as [|b0 ?]; simpl in *; try done.
  destruct (String.eqb _ _); simpl; [|done].
  destruct (Nat.eqb_spec (length (Container.Ports a0))
              (length (Container.Ports b0))); simpl; [|done].
  destruct (Container.Ports a0) as [|pa ?], (Container.Ports b0) as [|pb ?];
    simpl in *; try done.
  by destruct (_ =? _)%Z.
Qed.

(** The policy says yes exactly on the fields it is documented to read. *)
Lemma deploymentEqual_true (a b : DeploymentSpec.t) :
  deploymentEqual a b = Some true
  ↔ (∃ n, DeploymentSpec.Replicas a = Some n ∧ DeploymentSpec.Replicas b = Some n)
    ∧ length (DeploymentSpec.Containers a) = length (DeploymentSpec.Containers b)
    ∧ (∀ ca cb,
          head (DeploymentSpec.Containers a) = Some ca →
          head (DeploymentSpec.Containers b) = Some cb →
          Container.Image ca = Container.Image cb
          ∧ length (Container.Ports ca) = length (Container.Ports cb)
          ∧ (∀ pa pb,
                head (Container.Ports ca) = Some pa →
                head (Container.Ports cb) = Some pb →
                ContainerPort.ContainerPort pa = ContainerPort.ContainerPort pb)).
Proof.
  unfold deploymentEqual.
  destruct (DeploymentSpec.Replicas a) as [ra|]; simpl; [|naive_solver].
  destruct (DeploymentSpec.Replicas b) as [rb|]; simpl; [|naive_solver].
  destruct (Z.eqb_spec ra rb) as [->|Hr]; simpl; [|naive_solver].
  destruct (Nat.eqb_spec (length (DeploymentSpec.Containers a))
              (length (DeploymentSpec.Containers b))) as [Hlen|]; simpl;
    [|naive_solver].
  destruct (DeploymentSpec.Containers a) as [|a0 ?],
           (DeploymentSpec.Containers b) as [|b0 ?]; simpl in *; try done.
  { naive_solver. }
  destruct (String.eqb_spec (Container.Image a0) (Container.Image b0)) as [Hi|Hi];
    simpl; [|split; [done|]; intros (_ & _ & H); by destruct (H a0 b0)].
  destruct (Nat.eqb_spec (length (Container.Ports a0))
              (length (Container.Ports b0))) as [Hp|Hp]; simpl;
    [|split; [done|]; intros (_ & _ & H); by destruct (H a0 b0) as (_ & ? & _)].
  destruct (Container.Ports a0) as [|pa ?] eqn:Ea, (Container.Ports b0) as [|pb ?] eqn:Eb;
    simpl in *; try done.
  { split; [|done]. intros _. split; [eauto|]. split; [done|].
    intros ca cb [= <-] [= <-]. rewrite Ea, Eb. naive_solver. }
  destruct (Z.eqb_spec (ContainerPort.ContainerPort pa)
              (ContainerPort.ContainerPort pb)) as [Hc|Hc]; simpl.
  - split; [|done]. intros _. split; [eauto|]. split; [done|].
    intros ca cb [= <-] [= <-]. rewrite Ea, Eb. simpl. naive_solver.
  - split; [done|]. intros (_ & _ & H).
    destruct (H a0 b0) as (_ & _ & H'); [done..|].
    rewrite Ea, Eb in H'. by specialize (H' pa pb eq_refl eq_refl).
Qed.

Lemma deploymentEqual_policy (a b : DeploymentSpec.t) :
  deploymentEqual a b
  = deploymentPolicy (comparableDeployment a) (comparableDeployment b).
Proof.
  unfold deploymentEqual, deploymentPolicy, comparableDeployment.
  destruct (DeploymentSpec.Replicas a) as [ra|]; simpl; [|done].
  destruct (DeploymentSpec.Replicas b) as [rb|]; simpl; [|done].
  destruct (Z.eqb_spec ra rb) as [->|Hr]; simpl;
    [|by rewrite bool_decide_eq_false_2 by naive_solver].
  destruct (Nat.eqb_spec (length (DeploymentSpec.Containers a))
              (length (DeploymentSpec.Containers b))) as [Hlen|]; simpl;
    [|by rewrite bool_decide_eq_false_2 by naive_solver].
  destruct (DeploymentSpec.Containers a) as [|a0 ?],
           (DeploymentSpec.Containers b) as [|b0 ?]; simpl in *; try done.
  { by rewrite bool_decide_eq_true_2. }
  destruct (String.eqb_spec (Container.Image a0) (Container.Image b0)) as [Hi|Hi];
    simpl; [|by rewrite bool_decide_eq_false_2 by naive_solver].
  destruct (Nat.eqb_spec (length (Container.Ports a0))
              (length (Container.Ports b0))) as [Hp|Hp]; simpl;
    [|by rewrite bool_decide_eq_false_2 by naive_solver].
  destruct (Container.Ports a0) as [|pa ?], (Container.Ports b0) as [|pb ?];
    simpl in *; try done.
  { by rewrite bool_decide_eq_true_2 by (rewrite Hi, Hlen; done). }
  destruct (Z.eqb_spec (ContainerPort.ContainerPort pa)
              (ContainerPort.ContainerPort pb)) as [Hc|Hc]; simpl.
  - by rewrite bool_decide_eq_true_2 by (rewrite Hi, Hlen, Hp, Hc; done).
  - by rewrite bool_decide_eq_false_2 by naive_solver.
Qed.

(** C3. [deploymentEqual] answers yes exactly when the replica counts match,
    the container counts match and, where there is a first container, its
    image, its number of ports and its first port number match.  It panics
    exactly on a nil replica pointer, and its answer is a function of these
    comparable fields alone. *)
Theorem deploymentEqual_spec :
  (∀ a b : DeploymentSpec.t,
      deploymentEqual a b = Some true
      ↔ (∃ n, DeploymentSpec.Replicas a = Some n ∧ DeploymentSpec.Replicas b = Some n)
        ∧ length (DeploymentSpec.Containers a) = length (DeploymentSpec.Containers b)
        ∧ (∀ ca cb,
              head (DeploymentSpec.Containers a) = Some ca →
              head (DeploymentSpec.Containers b) = Some cb →
              Container.Image ca = Container.Image cb
              ∧ length (Container.Ports ca) = length (Container.Ports cb)
              ∧ (∀ pa pb,
                    head (Container.Ports ca) = Some pa →
                    head (Container.Ports cb) = Some pb →
                    ContainerPort.ContainerPort pa = ContainerPort.ContainerPort pb)))
  ∧ (∀ a b : DeploymentSpec.t,
        deploymentEqual a b = None
        ↔ DeploymentSpec.Replicas a = None ∨ DeploymentSpec.Replicas b = None)
  ∧ (∃ f, ∀ a b : DeploymentSpec.t,
        deploymentEqual a b = f (comparableDeployment a) (comparableDeployment b)).
Proof.
  split; [exact deploymentEqual_true|].
  split; [exact deploymentEqual_total|].
  exists deploymentPolicy. exact deploymentEqual_policy.
Qed.

Lemma deploymentEqual_refl (a : DeploymentSpec.t) (n : Z) :
  DeploymentSpec.Replicas a = Some n → deploymentEqual a a = Some true.
Proof. intros Hn. apply deploymentEqual_true. naive_solver. Qed.

(** ** The Service policy *)

Lemma serviceEqual_true (a b : ServiceSpec.t) :
  serviceEqual a b = true
  ↔ ServiceSpec.Type_ a = ServiceSpec.Type_ b
    ∧ length (ServiceSpec.Ports a) = length (ServiceSpec.Ports b)
    ∧ (∀ pa pb,
          head (ServiceSpec.Ports a) = Some pa →
          head (ServiceSpec.Ports b) = Some pb →
          ServicePort.Port pa = ServicePort.Port pb
          ∧ IntOrString.IntValue (ServicePort.TargetPort pa)
            = IntOrString.IntValue (ServicePort.TargetPort pb)
          ∧ ServicePort.Protocol pa = ServicePort.Protocol pb).
Proof.
  unfold serviceEqual.
  destruct (String.eqb_spec (ServiceSpec.Type_ a) (ServiceSpec.Type_ b)) as [Ht|Ht];
    simpl; [|naive_solver].
  destruct (Nat.eqb_spec (length (ServiceSpec.Ports a))
              (length (ServiceSpec.Ports b))) as [Hlen|]; simpl; [|naive_solver].
  destruct (ServiceSpec.Ports a) as [|pa ?], (ServiceSpec.Ports b) as [|pb ?];
    simpl in *; try done.
  destruct (Z.eqb_spec (ServicePort.Port pa) (ServicePort.Port pb)) as [Hp|Hp];
    simpl; [|split; [done|]; intros (_ & _ & H); by destruct (H pa pb)].
  destruct (Z.eqb_spec (IntOrString.IntValue (ServicePort.TargetPort pa))
              (IntOrString.IntValue (ServicePort.TargetPort pb))) as [Hv|Hv];
    simpl; [|split; [done|]; intros (_ & _ & H); by destruct (H pa pb) as (_ & ? & _)].
  destruct (String.eqb_spec (ServicePort.Protocol pa) (ServicePort.Protocol pb))
    as [Hq|Hq]; simpl; [naive_solver|].
  split; [done|]. intros (_ & _ & H). by destruct (H pa pb) as (_ & _ & ?).
Qed.

Lemma serviceEqual_policy (a b : ServiceSpec.t) :
  serviceEqual a b = servicePolicy (comparableService a) (comparableService b).
Proof.
  unfold servicePolicy.
  destruct (serviceEqual a b) eqn:E; symmetry.
  - apply bool_decide_eq_true_2. apply serviceEqual_true in E as (Ht & Hl & Hp).
    unfold comparableService. rewrite Ht, Hl.
    destruct (ServiceSpec.Ports a) as [|pa ?], (ServiceSpec.Ports b) as [|pb ?];
      simpl in *; try done.
    destruct (Hp pa pb) as (-> & -> & ->); done.
  - apply bool_decide_eq_false_2. intros Hv.
    assert (serviceEqual a b = true) as E'; [|congruence].
    apply serviceEqual_true. unfold comparableService in Hv.
    injection Hv as Ht Hl Hp. split; [done|]. split; [done|].
    intros pa pb Ha Hb. rewrite Ha, Hb in Hp. simpl in Hp. naive_solver.
Qed.

(** C4. [serviceEqual] answers yes exactly when the service types match, the
    port lists are equally long and, where both have a first port, its port
    number, numeric target port and protocol match; its answer is a function
    of these comparable fields alone. *)
Theorem serviceEqual_spec :
  (∀ a b : ServiceSpec.t,
      serviceEqual a b = true
      ↔ ServiceSpec.Type_ a = ServiceSpec.Type_ b
        ∧ length (ServiceSpec.Ports a) = length (ServiceSpec.Ports b)
        ∧ (∀ pa pb,
              head (ServiceSpec.Ports a) = Some pa →
              head (ServiceSpec.Ports b) = Some pb →
              ServicePort.Port pa = ServicePort.Port pb
              ∧ IntOrString.IntValue (ServicePort.TargetPort pa)
                = IntOrString.IntValue (ServicePort.TargetPort pb)
              ∧ ServicePort.Protocol pa = ServicePort.Protocol pb))
  ∧ (∃ f, ∀ a b : ServiceSpec.t,
        serviceEqual a b = f (comparableService a) (comparableService b)).
Proof.
  split; [exact serviceEqual_true|].
  exists servicePolicy. exact serviceEqual_policy.
Qed.

Lemma serviceEqual_refl (a : ServiceSpec.t) : serviceEqual a a = true.
Proof. apply serviceEqual_true. naive_solver. Qed.

(** ** Counting ready pods *)

Lemma countConditions_step (conds : list PodCondition.t) (n : Z) :
  (0 ≤ n < MaxInt32)%Z →
  countConditions conds n
  = (n + if existsb isReadyCondition conds then 1 else 0)%Z.
Proof.
  intros Hn. induction conds as [|c conds IH]; simpl; [lia|].
  destruct (isReadyCondition c); simpl; [|exact IH].
  apply wrap32_small. unfold MaxInt32 in Hn. lia.
Qed.

Lemma countPods_sum (items : list Pod.t) (n : Z) :
  (0 ≤ n)%Z → (n + Z.of_nat (length items) ≤ MaxInt32)%Z →
  countPods items n = (n + Z.of_nat (length (List.filter podIsReady items)))%Z.
Proof.
  revert n. induction items as [|p items IH]; intros n Hn Hlen; [simpl; lia|].
  rewrite length_cons, Nat2Z.inj_succ in Hlen.
  cbn [countPods List.filter].
  rewrite countConditions_step by lia. fold (podIsReady p).
  destruct (podIsReady p); rewrite IH by lia; [rewrite length_cons|]; lia.
Qed.

Lemma readyPods_count (items : list Pod.t) :
  (Z.of_nat (length items) ≤ MaxInt32)%Z →
  readyPods items = Z.of_nat (length (List.filter podIsReady items)).
Proof. intros H. unfold readyPods. rewrite countPods_sum; lia. Qed.

(** C10. As long as the pod list fits the [int32] counter, every pod is
    counted at most once: the count is the number of pods with some true
    "Ready" condition, however often a pod repeats it, and so it lies
    between 0 and the number of pods listed. *)
Theorem readyPods_bounds (items : list Pod.t) :
  (Z.of_nat (length items) ≤ MaxInt32)%Z →
  readyPods items = Z.of_nat (length (List.filter podIsReady items))
  ∧ (0 ≤ readyPods items ≤ Z.of_nat (length items))%Z
  ∧ (∀ pod, pod ∈ items → podIsReady pod = true → readyPods [pod] = 1%Z).
Proof.
  intros H. rewrite readyPods_count by done. split; [done|]. split.
  - pose proof (List.filter_length_le podIsReady items). lia.
  - intros pod _ Hr. rewrite readyPods_count by (simpl; unfold MaxInt32; lia).
    simpl. by rewrite Hr.
Qed.

Lemma readyPods_bounds_witness :
  (Z.of_nat (length Demo.threePods) ≤ MaxInt32)%Z
  ∧ readyPods Demo.threePods = 2%Z
  ∧ (0 ≤ readyPods Demo.threePods ≤ 3)%Z.
Proof.
  assert (Z.of_nat (length Demo.threePods) ≤ MaxInt32)%Z as H by (vm_compute; discriminate).
  split; [exact H|].
  destruct (readyPods_bounds Demo.threePods H) as (Hc & Hb & _).
  split; [exact Hc | exact Hb].
Defined.

(** ** Ownership links keep the identity of the object *)

Lemma SetControllerReference_meta (owner : App.t) (m m' : ObjectMeta.t) (sch : Scheme) :
  SetControllerReference owner m sch = inr m' →
  ObjectMeta.Name m' = ObjectMeta.Name m
  ∧ ObjectMeta.Namespace m' = ObjectMeta.Namespace m
  ∧ ObjectMeta.Labels m' = ObjectMeta.Labels m.
Proof.
  unfold SetControllerReference. intros H.
  repeat case_match; simplify_eq; done.
Qed.

Lemma SetControllerReference_key (owner : App.t) (m m' : ObjectMeta.t) (sch : Scheme) :
  SetControllerReference owner m sch = inr m' → metaKey m' = metaKey m.
Proof.
  intros H. apply SetControllerReference_meta in H as (Hn & Hs & _).
  unfold metaKey. by rewrite Hn, Hs.
Qed.

(** ** The desired objects *)

Lemma desiredDeployment_key (app : App.t) :
  metaKey (Deployment.Meta (desiredDeployment app)) = deploymentKey app.
Proof. reflexivity. Qed.

Lemma desiredService_key (app : App.t) :
  metaKey (Service.Meta (desiredService app)) = serviceKey app.
Proof. reflexivity. Qed.

Lemma desiredDeployment_replicas (app : App.t) :
  DeploymentSpec.Replicas (Deployment.Spec (desiredDeployment app))
  = Some (AppSpec.Replicas (App.Spec app)).
Proof. reflexivity. Qed.

Lemma desiredDeployment_containers (app : App.t) :
  DeploymentSpec.Containers (Deployment.Spec (desiredDeployment app))
  = [ Container.mk "app-container" (AppSpec.Image (App.Spec app))
        [ ContainerPort.mk "" (AppSpec.Port (App.Spec app)) "" ] ].
Proof. reflexivity. Qed.

Lemma desiredService_ports (app : App.t) :
  ServiceSpec.Ports (Service.Spec (desiredService app))
  = [ ServicePort.mk "" ProtocolTCP (AppSpec.Port (App.Spec app))
        (IntOrString.FromInt (AppSpec.Port (App.Spec app))) 0%Z ].
Proof. reflexivity. Qed.

Lemma desired_names (app : App.t) :
  ObjectMeta.Name (Deployment.Meta (desiredDeployment app))
  = String.append (App.Name app) "-deployment"
  ∧ ObjectMeta.Name (Service.Meta (desiredService app))
    = String.append (App.Name app) "-service"
  ∧ ObjectMeta.Namespace (Deployment.Meta (desiredDeployment app)) = App.Namespace app
  ∧ ObjectMeta.Namespace (Service.Meta (desiredService app)) = App.Namespace app.
Proof. done. Qed.

Lemma desired_labels (app : App.t) :
  ObjectMeta.Labels (Deployment.Meta (desiredDeployment app)) !! "app"
  = Some (App.Name app)
  ∧ ObjectMeta.Labels (Service.Meta (desiredService app)) !! "app"
    = Some (App.Name app).
Proof.
  unfold desiredDeployment, desiredService, controllerLabels. simpl.
  by rewrite lookup_insert_eq.
Qed.

(** The desired objects depend on the App's metadata and spec only. *)
Lemma desired_same (a b : App.t) :
  App.Meta a = App.Meta b → App.Spec a = App.Spec b →
  desiredDeployment a = desiredDeployment b
  ∧ desiredService a = desiredService b
  ∧ deploymentKey a = deploymentKey b
  ∧ serviceKey a = serviceKey b
  ∧ podsOf a = podsOf b
  ∧ (∀ m sch, SetControllerReference a m sch = SetControllerReference b m sch).
Proof.
  destruct a as [ma sa ta], b as [mb sb tb]; simpl. by intros -> ->.
Qed.

Local Opaque desiredDeployment desiredService.

(** ** The three steps, path by path *)

Ltac run_client :=
  unfold call, exit, orPanic, client.GetApp, client.GetDeployment, client.GetService,
    client.CreateDeployment, client.UpdateDeployment, client.CreateService,
    client.UpdateService, client.ListPods, client.StatusUpdate, client.nextFault,
    client.record;
  simpl.

Lemma reconcileDeployment_path (r : AppReconciler) (app : App.t) (w : World) :
  DeploymentPath r app w
    (fst (reconcileDeployment r app w)) (snd (reconcileDeployment r app w)).
Proof.
  unfold reconcileDeployment.
  destruct (SetControllerReference app (Deployment.Meta (desiredDeployment app))
              (scheme r)) as [err|meta] eqn:Eown.
  { by apply DeploymentAbort. }
  pose proof (SetControllerReference_key _ _ _ _ Eown) as Hkey.
  rewrite desiredDeployment_key in Hkey.
  destruct w as [st fs tr].
  unfold mbind, M_bind, mret, M_ret. run_client. rewrite Hkey.
  destruct fs as [|[f|] fs]; simpl; try (by apply DeploymentAbort).
  - destruct (deployments st !! deploymentKey app) as [found|] eqn:Efound; simpl.
    + destruct (deploymentEqual (Deployment.Spec found)
                  (Deployment.Spec (desiredDeployment app))) as [[]|] eqn:Eeq; simpl.
      * by eapply DeploymentUpToDate.
      * destruct (deployments st !! metaKey (Deployment.Meta found)) eqn:Eat; simpl.
        -- eapply DeploymentWritten; [right; eauto 10|done..].
        -- eapply DeploymentWriteFailed; [right; eauto 10|done..].
      * by eapply DeploymentPanic.
    + rewrite ?Hkey, ?Efound. simpl.
      eapply DeploymentWritten; [left; eauto 10| |done].
      simpl. by rewrite Hkey.
  - destruct (deployments st !! deploymentKey app) as [found|] eqn:Efound; simpl.
    + destruct (deploymentEqual (Deployment.Spec found)
                  (Deployment.Spec (desiredDeployment app))) as [[]|] eqn:Eeq; simpl.
      * by eapply DeploymentUpToDate.
      * destruct fs as [|[f|] fs]; simpl.
        -- destruct (deployments st !! metaKey (Deployment.Meta found)) eqn:Eat; simpl.
           ++ eapply DeploymentWritten; [right; eauto 10|done..].
           ++ eapply DeploymentWriteFailed; [right; eauto 10|done..].
        -- eapply DeploymentWriteFailed; [right; eauto 10|done..].
        -- destruct (deployments st !! metaKey (Deployment.Meta found)) eqn:Eat; simpl.
           ++ eapply DeploymentWritten; [right; eauto 10|done..].
           ++ eapply DeploymentWriteFailed; [right; eauto 10|done..].
      * by eapply DeploymentPanic.
    + destruct fs as [|[f|] fs]; simpl; rewrite ?Hkey, ?Efound; simpl.
      * eapply DeploymentWritten; [left; eauto 10| |done]. simpl. by rewrite Hkey.
      * eapply DeploymentWriteFailed; [left; eauto 10|done..].
      * eapply DeploymentWritten; [left; eauto 10| |done]. simpl. by rewrite Hkey.
Qed.

Lemma reconcileService_path (r : AppReconciler) (app : App.t) (w : World) :
  ServicePath r app w
    (fst (reconcileService r app w)) (snd (reconcileService r app w)).
Proof.
  unfold reconcileService.
  destruct (SetControllerReference app (Service.Meta (desiredService app))
              (scheme r)) as [err|meta] eqn:Eown.
  { by apply ServiceAbort. }
  pose proof (SetControllerReference_key _ _ _ _ Eown) as Hkey.
  rewrite desiredService_key in Hkey.
  destruct w as [st fs tr].
  unfold mbind, M_bind, mret, M_ret. run_client. rewrite Hkey.
  destruct fs as [|[f|] fs]; simpl; try (by apply ServiceAbort).
  - destruct (services st !! serviceKey app) as [found|] eqn:Efound; simpl.
    + destruct (serviceEqual (Service.Spec found)
                  (Service.Spec (desiredService app))) eqn:Eeq; simpl.
      * by eapply ServiceUpToDate.
      * destruct (services st !! metaKey (Service.Meta found)) eqn:Eat; simpl.
        -- eapply ServiceWritten; [right; eauto 10|done..].
        -- eapply ServiceWriteFailed; [right; eauto 10|done..].
    + rewrite ?Hkey, ?Efound. simpl.
      eapply ServiceWritten; [left; eauto 10| |done].
      simpl. by rewrite Hkey.
  - destruct (services st !! serviceKey app) as [found|] eqn:Efound; simpl.
    + destruct (serviceEqual (Service.Spec found)
                  (Service.Spec (desiredService app))) eqn:Eeq; simpl.
      * by eapply ServiceUpToDate.
      * destruct fs as [|[f|] fs]; simpl.
        -- destruct (services st !! metaKey (Service.Meta found)) eqn:Eat; simpl.
           ++ eapply ServiceWritten; [right; eauto 10|done..].
           ++ eapply ServiceWriteFailed; [right; eauto 10|done..].
        -- eapply ServiceWriteFailed; [right; eauto 10|done..].
        -- destruct (services st !! metaKey (Service.Meta found)) eqn:Eat; simpl.
           ++ eapply ServiceWritten; [right; eauto 10|done..].
           ++ eapply ServiceWriteFailed; [right; eauto 10|done..].
    + destruct fs as [|[f|] fs]; simpl; rewrite ?Hkey, ?Efound; simpl.
      * eapply ServiceWritten; [left; eauto 10| |done]. simpl. by rewrite Hkey.
      * eapply ServiceWriteFailed; [left; eauto 10|done..].
      * eapply ServiceWritten; [left; eauto 10| |done]. simpl. by rewrite Hkey.
Qed.

(** The status write, when the counts agree and when they do not. *)
Lemma updateStatus_same (app : App.t) (items : list Pod.t) (w : World) :
  AppStatus.Replicas (App.Status app) = readyPods items →
  updateStatus app items w = (Next tt, w).
Proof.
  intros H. unfold updateStatus. rewrite H, Z.eqb_refl. reflexivity.
Qed.

Lemma updateStatus_changed (app : App.t) (items : list Pod.t) (w : World) :
  AppStatus.Replicas (App.Status app) ≠ readyPods items →
  let a' := withStatusReplicas app (readyPods items) in
  let w' := snd (updateStatus app items w) in
  (∃ err, fst (updateStatus app items w) = Return Result.empty (Some err)
          ∧ store w' = store w
          ∧ trace w' = trace w ++ [mkEvent (AppStatusUpdate a') (Some err)])
  ∨ (∃ stored, fst (updateStatus app items w) = Next tt
          ∧ apps (store w) !! metaKey (App.Meta app) = Some stored
          ∧ store w' = withApps (store w)
                         (<[metaKey (App.Meta app) :=
                              App.mk (App.Meta stored) (App.Spec stored)
                                (App.Status a')]> (apps (store w)))
          ∧ trace w' = trace w ++ [mkEvent (AppStatusUpdate a') None]).
Proof.
  intros H. unfold updateStatus.
  destruct (Z.eqb_spec (AppStatus.Replicas (App.Status app)) (readyPods items));
    [done|].
  destruct w as [st fs tr].
  unfold mbind, M_bind, mret, M_ret. run_client.
  destruct fs as [|[f|] fs]; simpl.
  - destruct (apps st !! metaKey (App.Meta app)) eqn:E; simpl; [right|left]; eauto 10.
  - left; eauto 10.
  - destruct (apps st !! metaKey (App.Meta app)) eqn:E; simpl; [right|left]; eauto 10.
Qed.

Lemma reconcileStatus_path (app : App.t) (w : World) :
  StatusPath app w (fst (reconcileStatus app w)) (snd (reconcileStatus app w)).
Proof.
  unfold reconcileStatus, mbind, M_bind, call, client.ListPods, client.nextFault.
  destruct w as [st fs tr]. simpl.
  fold (podsOf app st).
  assert (∀ w0, store w0 = st → trace w0 = tr →
            StatusPath app (mkWorld st fs tr)
              (fst (updateStatus app (podsOf app st) w0))
              (snd (updateStatus app (podsOf app st) w0))) as Hupd.
  { intros w0 Hst Htr.
    destruct (decide (AppStatus.Replicas (App.Status app)
                      = readyPods (podsOf app st))) as [Heq|Hne].
    - rewrite updateStatus_same by done. by apply StatusUnchanged.
    - destruct (updateStatus_changed app (podsOf app st) w0 Hne)
        as [(err & -> & Hs & Ht)|(stored & -> & Hl & Hs & Ht)].
      + apply StatusWriteFailed; simpl; [done|congruence|congruence].
      + rewrite Hst in Hl, Hs. rewrite Htr in Ht.
        by eapply StatusWritten. }
  destruct fs as [|[f|] fs]; simpl.
  - by apply Hupd.
  - by apply StatusAbort.
  - by apply Hupd.
Qed.

(** C5. For every pod list that fits the [int32] counter and every stored
    status value, the status step counts the pods carrying a true "Ready"
    condition, issues a status write exactly when that count differs from
    the stored value, and the write carries the count; on equal counts it
    writes nothing and leaves the store alone. *)
Theorem updateStatus_spec (app : App.t) (items : list Pod.t) (w : World) :
  (Z.of_nat (length items) ≤ MaxInt32)%Z →
  let n := Z.of_nat (length (List.filter podIsReady items)) in
  let w' := snd (updateStatus app items w) in
  readyPods items = n
  ∧ (AppStatus.Replicas (App.Status app) = n →
       issued w w' = [] ∧ store w' = store w)
  ∧ (AppStatus.Replicas (App.Status app) ≠ n →
       ∃ err, issued w w' = [mkEvent (AppStatusUpdate (withStatusReplicas app n)) err]
              ∧ AppStatus.Replicas (App.Status (withStatusReplicas app n)) = n
              ∧ (err = None →
                 ∃ a, apps (store w') !! metaKey (App.Meta app) = Some a
                      ∧ AppStatus.Replicas (App.Status a) = n))
  ∧ ((∃ ev, ev ∈ issued w w' ∧ isStatusWrite ev)
     ↔ AppStatus.Replicas (App.Status app) ≠ n).
Proof.
  intros Hlen n w'. subst n w'. rewrite <- (readyPods_count items Hlen).
  split; [done|].
  destruct (decide (AppStatus.Replicas (App.Status app) = readyPods items))
    as [Heq|Hne].
  - rewrite updateStatus_same by done. unfold issued. simpl.
    rewrite drop_all. split; [done|]. split; [done|].
    split; [|done]. intros (ev & Hin & _). by apply elem_of_nil in Hin.
  - destruct (updateStatus_changed app items w Hne)
      as [(err & _ & Hs & Ht)|(stored & _ & Hl & Hs & Ht)];
      unfold issued; rewrite Ht, drop_app_length.
    + split; [done|]. split.
      * intros _. exists (Some err). done.
      * split; [done|]. intros _. eexists. split; [apply list_elem_of_here|].
        by eexists.
    + split; [done|]. split.
      * intros _. exists None. split; [done|]. split; [done|]. intros _.
        rewrite Hs. simpl. rewrite lookup_insert_eq. by eexists.
      * split; [done|]. intros _. eexists. split; [apply list_elem_of_here|].
        by eexists.
Qed.

(** ** A whole pass *)

Lemma GetApp_result (key : Key) (w : World) :
  store (snd (client.GetApp key w)) = store w
  ∧ trace (snd (client.GetApp key w)) = trace w
  ∧ match fst (client.GetApp key w) with
    | inl ErrNotFound => apps (store w) !! key = None
    | inl (ErrStore _) => True
    | inl _ => False
    | inr app => apps (store w) !! key = Some app
    end.
Proof.
  destruct w as [st fs tr]. unfold client.GetApp, client.nextFault. simpl.
  destruct fs as [|[f|] fs]; simpl; try done;
    by destruct (apps st !! key) eqn:E.
Qed.

Lemma M_bind_run {A B} (m : M A) (f : A → M B) (w : World) :
  (m ≫= f) w
  = match m w with
    | (Next a, w') => f a w'
    | (Return res err, w') => (Return res err, w')
    | (Panic, w') => (Panic, w')
    end.
Proof. reflexivity. Qed.

Lemma Reconcile_pass_eq (r : AppReconciler) (req : NamespacedName) (w : World)
    (out : Outcome) (w' : World) :
  Reconcile r req w = (out, w') → Pass r req w out w'.
Proof.
  unfold Reconcile, reconcileSteps. rewrite M_bind_run. unfold call at 1.
  destruct (GetApp_result (keyOf req) w) as (Hst & Htr & Hres).
  destruct (client.GetApp (keyOf req) w) as [got w0]. simpl in *.
  destruct got as [err|app].
  { destruct err; try done; simpl; intros [= <- <-].
    - by apply PassAbsent.
    - by apply PassFetchFailed. }
  rewrite M_bind_run.
  pose proof (reconcileDeployment_path r app w0) as Hd.
  destruct (reconcileDeployment r app w0) as [s1 w1]. simpl in Hd.
  destruct s1 as [[]|res err|]; simpl;
    [|intros [= <- <-];
      by apply (PassStoppedAtDeployment r req w app w0 (Return res err) w1)
     |intros [= <- <-];
      by apply (PassStoppedAtDeployment r req w app w0 Panic w1)].
  rewrite M_bind_run.
  pose proof (reconcileService_path r app w1) as Hs.
  destruct (reconcileService r app w1) as [s2 w2]. simpl in Hs.
  destruct s2 as [[]|res err|]; simpl;
    [|intros [= <- <-];
      by apply (PassStoppedAtService r req w app w0 w1 (Return res err) w2)
     |intros [= <- <-];
      by apply (PassStoppedAtService r req w app w0 w1 Panic w2)].
  rewrite M_bind_run.
  pose proof (reconcileStatus_path app w2) as Ht.
  destruct (reconcileStatus app w2) as [s3 w3]. simpl in Ht.
  destruct s3 as [[]|res err|]; simpl;
    [|intros [= <- <-];
      by apply (PassStoppedAtStatus r req w app w0 w1 w2 (Return res err) w3)
     |intros [= <- <-];
      by apply (PassStoppedAtStatus r req w app w0 w1 w2 Panic w3)].
  unfold exit. intros [= <- <-]. by eapply PassDone.
Qed.

Lemma Reconcile_pass (r : AppReconciler) (req : NamespacedName) (w : World) :
  Pass r req w (fst (Reconcile r req w)) (snd (Reconcile r req w)).
Proof. apply Reconcile_pass_eq. by destruct (Reconcile r req w). Qed.

(** ** What a step that went through leaves behind *)

Lemma DeploymentPath_next (r : AppReconciler) (app : App.t) (w w' : World) :
  (∀ k d, deployments (store w) !! k = Some d → metaKey (Deployment.Meta d) = k) →
  DeploymentPath r app w (Next tt) w' →
  apps (store w') = apps (store w)
  ∧ services (store w') = services (store w)
  ∧ pods (store w') = pods (store w)
  ∧ ∃ d, deployments (store w') !! deploymentKey app = Some d
         ∧ deploymentEqual (Deployment.Spec d)
             (Deployment.Spec (desiredDeployment app)) = Some true.
Proof.
  intros Hwf Hp. inversion Hp as [| |found ? Hst Htr Hf He| |rq d ? Hw Hst Htr]; subst.
  - rewrite Hst. eauto 10.
  - rewrite Hst. simpl. do 3 (split; [done|]). exists d.
    assert (metaKey (Deployment.Meta d) = deploymentKey app
            ∧ Deployment.Spec d = Deployment.Spec (desiredDeployment app))
      as [Hk Hs].
    { destruct Hw as [(meta & Hown & _ & -> & _)|(found & Hf & _ & -> & _)]; simpl.
      - apply SetControllerReference_key in Hown.
        by rewrite desiredDeployment_key in Hown.
      - split; [by apply Hwf|done]. }
    rewrite Hk, lookup_insert_eq, Hs. split; [done|].
    eapply deploymentEqual_refl, desiredDeployment_replicas.
Qed.

Lemma ServicePath_next (r : AppReconciler) (app : App.t) (w w' : World) :
  (∀ k s, services (store w) !! k = Some s → metaKey (Service.Meta s) = k) →
  ServicePath r app w (Next tt) w' →
  apps (store w') = apps (store w)
  ∧ deployments (store w') = deployments (store w)
  ∧ pods (store w') = pods (store w)
  ∧ ∃ s, services (store w') !! serviceKey app = Some s
         ∧ serviceEqual (Service.Spec s) (Service.Spec (desiredService app)) = true.
Proof.
  intros Hwf Hp. inversion Hp as [|found ? Hst Htr Hf He| |rq s ? Hw Hst Htr]; subst.
  - rewrite Hst. eauto 10.
  - rewrite Hst. simpl. do 3 (split; [done|]). exists s.
    assert (metaKey (Service.Meta s) = serviceKey app
            ∧ Service.Spec s = Service.Spec (desiredService app))
      as [Hk Hs].
    { destruct Hw as [(meta & Hown & _ & -> & _)|(found & Hf & _ & -> & _)]; simpl.
      - apply SetControllerReference_key in Hown.
        by rewrite desiredService_key in Hown.
      - split; [by apply Hwf|done]. }
    rewrite Hk, lookup_insert_eq, Hs. split; [done|]. apply serviceEqual_refl.
Qed.

Lemma StatusPath_next (app : App.t) (w w' : World) :
  apps (store w) !! metaKey (App.Meta app) = Some app →
  StatusPath app w (Next tt) w' →
  deployments (store w') = deployments (store w)
  ∧ services (store w') = services (store w)
  ∧ pods (store w') = pods (store w)
  ∧ ∃ a, apps (store w') !! metaKey (App.Meta app) = Some a
         ∧ App.Meta a = App.Meta app ∧ App.Spec a = App.Spec app
         ∧ AppStatus.Replicas (App.Status a) = readyPods (podsOf app (store w)).
Proof.
  intros Happ Hp. inversion Hp as [|? Hst Htr He| |stored ? Hne Hl Hst Htr]; subst.
  - rewrite Hst. eauto 10.
  - rewrite Hst. simpl. do 3 (split; [done|]).
    rewrite lookup_insert_eq. eexists. split; [done|].
    rewrite Happ in Hl. by injection Hl as <-.
Qed.

(** ** A step that finds nothing to do *)

Lemma DeploymentPath_quiet (r : AppReconciler) (app : App.t) (w : World)
    (s : Step unit) (w' : World) (d : Deployment.t) :
  deployments (store w) !! deploymentKey app = Some d →
  deploymentEqual (Deployment.Spec d) (Deployment.Spec (desiredDeployment app))
    = Some true →
  DeploymentPath r app w s w' →
  store w' = store w ∧ trace w' = trace w.
Proof.
  intros Hd He Hp.
  inversion Hp as [| | |rq d' ? ? Hw|rq d' ? Hw]; subst; try done;
    destruct Hw as [(? & _ & Hn & _)|(found & Hf & Hne & _)]; congruence.
Qed.

Lemma ServicePath_quiet (r : AppReconciler) (app : App.t) (w : World)
    (s : Step unit) (w' : World) (sv : Service.t) :
  services (store w) !! serviceKey app = Some sv →
  serviceEqual (Service.Spec sv) (Service.Spec (desiredService app)) = true →
  ServicePath r app w s w' →
  store w' = store w ∧ trace w' = trace w.
Proof.
  intros Hd He Hp.
  inversion Hp as [| |rq s' ? ? Hw|rq s' ? Hw]; subst; try done;
    destruct Hw as [(? & _ & Hn & _)|(found & Hf & Hne & _)]; congruence.
Qed.

Lemma StatusPath_quiet (app : App.t) (w : World) (s : Step unit) (w' : World) :
  AppStatus.Replicas (App.Status app) = readyPods (podsOf app (store w)) →
  StatusPath app w s w' →
  store w' = store w ∧ trace w' = trace w.
Proof. intros He Hp. inversion Hp; subst; done. Qed.

(** ** Convergence of a pass, and quiet passes after it *)

Lemma pass_converges (r : AppReconciler) (req : NamespacedName) (w w' : World)
    (res : Result.t) (app : App.t) :
  wfStore (store w) →
  apps (store w) !! keyOf req = Some app →
  Pass r req w (Returned res None) w' →
  Converged app (store w').
Proof.
  intros (Hwa & Hwd & Hws) Happ Hp.
  inversion Hp
    as [? Hn| |? ? s ? ? ? ? Hd Hs Ho|? ? ? s ? ? ? ? Hd Hs Hne Ho
       |? ? ? ? s ? ? ? ? Hd Hs Ht Hne Ho|app0 w0 w1 w2 ? Ha Hst Htr Hd Hs Ht];
    subst.
  - congruence.
  - inversion Hd; subst; simpl in *; congruence.
  - inversion Hs; subst; simpl in *; congruence.
  - inversion Ht; subst; simpl in *; congruence.
  - assert (app0 = app) as -> by congruence.
    apply DeploymentPath_next in Hd as (Ha1 & Hs1 & Hp1 & Hd1);
      [|by rewrite Hst].
    apply ServicePath_next in Hs as (Ha2 & Hd2 & Hp2 & Hs2);
      [|rewrite Hs1, Hst; done].
    apply StatusPath_next in Ht as (Hd3 & Hs3 & Hp3 & Ha3);
      [|rewrite Ha2, Ha1, Hst, (Hwa _ _ Happ); done].
    unfold Converged. rewrite Hd3, Hd2, Hs3.
    split; [done|]. split; [done|].
    destruct Ha3 as (a & ? & ? & ? & Hr). exists a. do 3 (split; [done|]).
    rewrite Hr. unfold podsOf. by rewrite Hp3.
Qed.

Lemma converged_quiet (r : AppReconciler) (req : NamespacedName) (w w' : World)
    (out : Outcome) (app : App.t) :
  keyOf req = metaKey (App.Meta app) →
  Converged app (store w) →
  Pass r req w out w' →
  store w' = store w ∧ trace w' = trace w.
Proof.
  intros Hkey ((d & Hd & Hde) & (s & Hs & Hse) & (a & Ha & Hm & Hsp & Hr)) Hp.
  destruct (desired_same a app Hm Hsp) as (Edd & Eds & Ekd & Eks & Epo & _).
  rewrite <- Hkey in Ha.
  rewrite <- Ekd in Hd. rewrite <- Edd in Hde.
  rewrite <- Eks in Hs. rewrite <- Eds in Hse.
  rewrite <- Epo in Hr.
  inversion Hp
    as [| |a0 w0 ? ? Ha0 Hst Htr Hpd|a0 w0 w1 ? ? Ha0 Hst Htr Hpd Hps
       |a0 w0 w1 w2 ? ? Ha0 Hst Htr Hpd Hps Hpt|a0 w0 w1 w2 ? Ha0 Hst Htr Hpd Hps Hpt];
    subst; try done.
  all: assert (a0 = a) as -> by congruence.
  all: eapply DeploymentPath_quiet in Hpd as [Hst1 Htr1];
    [|rewrite Hst; done|done].
  all: try (eapply ServicePath_quiet in Hps as [Hst2 Htr2];
            [|rewrite Hst1, Hst; done|done]).
  all: try (eapply StatusPath_quiet in Hpt as [Hst3 Htr3];
            [|rewrite Hst2, Hst1, Hst; done]).
  all: split; congruence.
Qed.

Lemma absent_quiet (r : AppReconciler) (req : NamespacedName) (w w' : World)
    (out : Outcome) :
  apps (store w) !! keyOf req = None →
  Pass r req w out w' →
  store w' = store w ∧ trace w' = trace w.
Proof. intros Hn Hp. inversion Hp; subst; try done; congruence. Qed.

Lemma issued_nothing (w w' : World) : trace w' = trace w → issued w w' = [].
Proof. intros H. unfold issued. rewrite H. apply drop_all. Qed.

(** C2. After a pass that returned without error on a well-formed store, a
    second pass on the store that pass left behind issues no write at all
    (whatever faults strike it) and leaves the store as it is. *)
Theorem Reconcile_idempotent (r : AppReconciler) (req : NamespacedName)
    (w w2 : World) (res : Result.t) :
  wfStore (store w) →
  fst (Reconcile r req w) = Returned res None →
  store w2 = store (snd (Reconcile r req w)) →
  issued w2 (snd (Reconcile r req w2)) = []
  ∧ store (snd (Reconcile r req w2)) = store w2.
Proof.
  intros Hwf Hok Hst.
  pose proof (Reconcile_pass r req w) as Hp1. rewrite Hok in Hp1.
  pose proof (Reconcile_pass r req w2) as Hp2.
  destruct (apps (store w) !! keyOf req) as [app|] eqn:Happ.
  - pose proof (pass_converges _ _ _ _ _ _ Hwf Happ Hp1) as Hc.
    rewrite <- Hst in Hc.
    destruct Hwf as (Hwa & _). apply Hwa in Happ.
    destruct (converged_quiet _ _ _ _ _ _ (eq_sym Happ) Hc Hp2) as [Hs Ht].
    split; [by apply issued_nothing|done].
  - destruct (absent_quiet _ _ _ _ _ Happ Hp1) as [Hs1 _].
    rewrite Hs1 in Hst. rewrite <- Hst in Happ.
    destruct (absent_quiet _ _ _ _ _ Happ Hp2) as [Hs Ht].
    split; [by apply issued_nothing|done].
Qed.

Lemma Reconcile_idempotent_witness :
  let w := Demo.world Demo.driftedStore [] in
  let w1 := snd (Reconcile Demo.reconciler Demo.req w) in
  length (issued w w1) = 2%nat
  ∧ issued (Demo.world (store w1) []) 
      (snd (Reconcile Demo.reconciler Demo.req (Demo.world (store w1) []))) = [].
Proof.
  split; [by vm_compute|].
  refine (proj1 (Reconcile_idempotent Demo.reconciler Demo.req
                   (Demo.world Demo.driftedStore []) _
                   (Result.mk false (30 * Second)) _ _ _)).
  - unfold wfStore, Demo.driftedStore. simpl.
    repeat split; intros k x Hx.
    + apply lookup_singleton_Some in Hx as [<- <-]. reflexivity.
    + apply lookup_singleton_Some in Hx as [<- <-]. reflexivity.
    + by rewrite lookup_empty in Hx.
  - by vm_compute.
  - reflexivity.
Defined.

(** C6. When the fetch of the App reports absence, the pass returns without
    error and with an empty result (no requeue, no delay), issues no write
    and leaves the store as it is. *)
Theorem Reconcile_app_absent (r : AppReconciler) (req : NamespacedName) (w : World) :
  fst (client.GetApp (keyOf req) w) = inl ErrNotFound →
  fst (Reconcile r req w) = Returned Result.empty None
  ∧ Result.Requeue Result.empty = false
  ∧ Result.RequeueAfter Result.empty = 0%Z
  ∧ issued w (snd (Reconcile r req w)) = []
  ∧ store (snd (Reconcile r req w)) = store w.
Proof.
  intros Hget.
  destruct (GetApp_result (keyOf req) w) as (Hst & Htr & _).
  unfold Reconcile, reconcileSteps. rewrite M_bind_run. unfold call.
  destruct (client.GetApp (keyOf req) w) as [got w0]. simpl in *. subst got.
  simpl. split; [done|]. split; [done|]. split; [done|].
  split; [by apply issued_nothing|done].
Qed.

Lemma Reconcile_app_absent_witness :
  fst (Reconcile Demo.reconciler Demo.req (Demo.world Demo.emptyStore []))
  = Returned Result.empty None
  ∧ issued (Demo.world Demo.emptyStore [])
      (snd (Reconcile Demo.reconciler Demo.req (Demo.world Demo.emptyStore [])))
    = [].
Proof.
  destruct (Reconcile_app_absent Demo.reconciler Demo.req
              (Demo.world Demo.emptyStore []) eq_refl) as (H1 & _ & _ & H2 & _).
  split; [exact H1 | exact H2].
Defined.

(** C7, as the code has it.  A pass that returns without error for an App
    that exists asks for the next pass after 30 seconds; a pass that returns
    without error because the App is absent asks for none. *)
Theorem Reconcile_requeue (r : AppReconciler) (req : NamespacedName) (w : World)
    (res : Result.t) :
  fst (Reconcile r req w) = Returned res None →
  (∀ app, apps (store w) !! keyOf req = Some app →
          res = Result.mk false (30 * Second)
          ∧ Result.RequeueAfter res = 30000000000%Z)
  ∧ (apps (store w) !! keyOf req = None → res = Result.empty).
Proof.
  intros Hok. pose proof (Reconcile_pass r req w) as Hp. rewrite Hok in Hp.
  inversion Hp as [| |? ? s ? ? ? ? Hd Hs Ho|? ? ? s ? ? ? ? Hd Hs Hne Ho
                  |? ? ? ? s ? ? ? ? Hd Hs Ht Hne Ho|]; subst.
  - split; [congruence|done].
  - inversion Hd; subst; simpl in *; congruence.
  - inversion Hs; subst; simpl in *; congruence.
  - inversion Ht; subst; simpl in *; congruence.
  - split; [done|congruence].
Qed.

Lemma Reconcile_requeue_witness :
  ∃ res,
    fst (Reconcile Demo.reconciler Demo.req (Demo.world (Demo.freshStore 0) []))
    = Returned res None
    ∧ Result.RequeueAfter res = 30000000000%Z.
Proof.
  exists (Result.mk false (30 * Second)).
  assert (fst (Reconcile Demo.reconciler Demo.req
                 (Demo.world (Demo.freshStore 0) []))
          = Returned (Result.mk false (30 * Second)) None) as H by (by vm_compute).
  split; [exact H|].
  refine (proj2 (proj1 (Reconcile_requeue _ _ _ _ H) (Demo.webApp 0) _)).
  by vm_compute.
Defined.

(** C7 as stated fails: with the App absent the pass is done, without error,
    and no follow-up is scheduled. *)
Lemma Reconcile_done_without_requeue :
  ∃ res,
    fst (Reconcile Demo.reconciler Demo.req (Demo.world Demo.emptyStore []))
    = Returned res None
    ∧ Result.RequeueAfter res = 0%Z
    ∧ Result.RequeueAfter res ≠ (30 * Second)%Z.
Proof. exists Result.empty. by vm_compute. Qed.

(** ** Writes of a pass, case by case *)

Ltac destruct_worlds :=
  repeat match goal with
         | w : World |- _ => destruct w as [? ? ?]
         end;
  simpl in *; subst.

Ltac invert_paths :=
  repeat match goal with
         | H : DeploymentPath _ _ _ _ _ |- _ => inversion H; subst; clear H
         | H : ServicePath _ _ _ _ _ |- _ => inversion H; subst; clear H
         | H : StatusPath _ _ _ _ |- _ => inversion H; subst; clear H
         end.

(** Every way through a pass, with the worlds opened up and the writes it
    issued spelled out as a list. *)
Ltac run_pass r req w :=
  let HP := fresh "HP" in
  pose proof (Reconcile_pass r req w) as HP;
  destruct (Reconcile r req w) as [? ?];
  unfold issued in *; simpl in *;
  inversion HP; subst; clear HP;
  invert_paths; destruct_worlds;
  rewrite <- ?app_assoc, ?drop_app_length, ?drop_all in *; simpl in *.

Ltac split_events H :=
  repeat (apply elem_of_cons in H as [->|H]); [..|by apply elem_of_nil in H].

(** C1, as the code has it.  Every update a pass issues carries the stored
    object it found, unequal to the desired state under the policy, with its
    metadata (name, namespace, labels, owner references) as found and its
    whole spec replaced by the desired spec; an update that succeeds is what
    the store holds afterwards. *)
Theorem update_replaces_whole_spec (r : AppReconciler) (req : NamespacedName)
    (w : World) (ev : Event) :
  ev ∈ issued w (snd (Reconcile r req w)) →
  (∀ d, request ev = DeploymentUpdate d →
        ∃ app found,
          apps (store w) !! keyOf req = Some app
          ∧ deployments (store w) !! deploymentKey app = Some found
          ∧ deploymentEqual (Deployment.Spec found)
              (Deployment.Spec (desiredDeployment app)) = Some false
          ∧ Deployment.Meta d = Deployment.Meta found
          ∧ Deployment.Spec d = Deployment.Spec (desiredDeployment app)
          ∧ (failure ev = None →
             deployments (store (snd (Reconcile r req w)))
               !! metaKey (Deployment.Meta found) = Some d))
  ∧ (∀ s, request ev = ServiceUpdate s →
        ∃ app found,
          apps (store w) !! keyOf req = Some app
          ∧ services (store w) !! serviceKey app = Some found
          ∧ serviceEqual (Service.Spec found)
              (Service.Spec (desiredService app)) = false
          ∧ Service.Meta s = Service.Meta found
          ∧ Service.Spec s = Service.Spec (desiredService app)
          ∧ (failure ev = None →
             services (store (snd (Reconcile r req w)))
               !! metaKey (Service.Meta found) = Some s)).
Proof.
  run_pass r req w; intros Hin; split_events Hin.
  all: unfold deploymentWrite, serviceWrite in *; simpl.
  all: split; intros x Hx; subst.
  all: repeat match goal with
              | H : _ ∨ _ |- _ => destruct H as [H|H]
              | H : ∃ _, _ |- _ => destruct H as (? & H)
              | H : _ ∧ _ |- _ => destruct H as (? & H)
              end; subst; simplify_eq.
  all: eexists _, _; do 3 (split; [eassumption|]); do 2 (split; [done|]).
  all: simpl; intros Hf; by rewrite ?lookup_insert_eq.
Qed.

Lemma update_replaces_whole_spec_witness :
  ∃ app found,
    apps Demo.driftedStore !! keyOf Demo.req = Some app
    ∧ deployments Demo.driftedStore !! deploymentKey app = Some found
    ∧ Deployment.Meta found = Deployment.Meta Demo.driftedDeployment
    ∧ DeploymentSpec.Replicas (Deployment.Spec found) = Some 5%Z
    ∧ DeploymentSpec.Replicas (Deployment.Spec (desiredDeployment app)) = Some 3%Z.
Proof.
  pose (w := Demo.world Demo.driftedStore []).
  pose (d := Deployment.mk (Deployment.Meta Demo.driftedDeployment)
               (Deployment.Spec (desiredDeployment (Demo.webApp 2)))).
  pose (ev := mkEvent (DeploymentUpdate d) None).
  assert (ev ∈ issued w (snd (Reconcile Demo.reconciler Demo.req w))) as Hin.
  { replace (issued w (snd (Reconcile Demo.reconciler Demo.req w)))
      with (ev :: drop 1 (issued w (snd (Reconcile Demo.reconciler Demo.req w))))
      by (by vm_compute).
    apply list_elem_of_here. }
  destruct (proj1 (update_replaces_whole_spec Demo.reconciler Demo.req w ev Hin)
              d eq_refl)
    as (app & found & Ha & Hf & _ & Hm & _).
  exists app, found.
  change (apps Demo.driftedStore !! keyOf Demo.req = Some app) in Ha.
  change (deployments Demo.driftedStore !! deploymentKey app = Some found) in Hf.
  split; [exact Ha|]. split; [exact Hf|].
  assert (app = Demo.webApp 2) as ->.
  { assert (apps Demo.driftedStore !! keyOf Demo.req = Some (Demo.webApp 2)) as Ha'
      by (by vm_compute).
    change (apps Demo.driftedStore !! keyOf Demo.req = Some app) in Ha.
    congruence. }
  assert (found = Demo.driftedDeployment) as ->.
  { assert (deployments Demo.driftedStore !! deploymentKey (Demo.webApp 2)
            = Some Demo.driftedDeployment) as Hf' by (by vm_compute).
    change (deployments Demo.driftedStore !! deploymentKey (Demo.webApp 2)
            = Some found) in Hf.
    congruence. }
  split; [reflexivity|]. split; reflexivity.
Defined.

(** C1 as stated fails: the update that corrects a drifted replica count
    also resets fields the policy never compares (here the minimum ready
    time, the service account and the name of the container port), while
    the labels on the object stay as they were. *)
Lemma update_resets_uncompared_fields :
  let w := Demo.world Demo.driftedStore [] in
  let w' := snd (Reconcile Demo.reconciler Demo.req w) in
  let found := Demo.driftedDeployment in
  ∃ d,
    head (issued w w') = Some (mkEvent (DeploymentUpdate d) None)
    ∧ deployments (store w) !! ("default", "web-deployment") = Some found
    ∧ deploymentEqual (Deployment.Spec found)
        (Deployment.Spec (desiredDeployment (Demo.webApp 2))) = Some false
    ∧ deployments (store w') !! ("default", "web-deployment") = Some d
    ∧ DeploymentSpec.MinReadySeconds (Deployment.Spec found) = 10%Z
    ∧ DeploymentSpec.MinReadySeconds (Deployment.Spec d) = 0%Z
    ∧ PodSpec.ServiceAccountName
        (PodTemplateSpec.Spec (DeploymentSpec.Template (Deployment.Spec found)))
      = "web-sa"
    ∧ PodSpec.ServiceAccountName
        (PodTemplateSpec.Spec (DeploymentSpec.Template (Deployment.Spec d)))
      = ""
    ∧ ObjectMeta.Labels (Deployment.Meta d) !! "team" = Some "payments".
Proof.
  exists (Deployment.mk (Deployment.Meta Demo.driftedDeployment)
            (Deployment.Spec (desiredDeployment (Demo.webApp 2)))).
  repeat split; by vm_compute.
Qed.

(** C8. When a pass issues a Service write that comes back with an error,
    the pass returns that error, no status write is issued and the stored
    App is untouched, the stored Services are untouched, and every
    Deployment write of the pass went through and is still in the store. *)
Theorem service_write_failure_isolated (r : AppReconciler) (req : NamespacedName)
    (w : World) (ev : Event) (err : Error) :
  ev ∈ issued w (snd (Reconcile r req w)) →
  isServiceWrite ev →
  failure ev = Some err →
  fst (Reconcile r req w) = Returned Result.empty (Some err)
  ∧ (∀ e, e ∈ issued w (snd (Reconcile r req w)) → ¬ isStatusWrite e)
  ∧ apps (store (snd (Reconcile r req w))) = apps (store w)
  ∧ services (store (snd (Reconcile r req w))) = services (store w)
  ∧ (∀ e d, e ∈ issued w (snd (Reconcile r req w)) →
            request e = DeploymentCreate d ∨ request e = DeploymentUpdate d →
            failure e = None
            ∧ deployments (store (snd (Reconcile r req w)))
                !! metaKey (Deployment.Meta d) = Some d).
Proof.
  unfold isServiceWrite, isStatusWrite.
  run_pass r req w; intros Hin (sv & Hsv) Hf; split_events Hin; simpl in *.
  all: unfold deploymentWrite, serviceWrite in *.
  all: repeat match goal with
              | H : _ ∨ _ |- _ => destruct H as [H|H]
              | H : ∃ _, _ |- _ => destruct H as (? & H)
              | H : _ ∧ _ |- _ => destruct H as (? & H)
              end; subst; simplify_eq.
  all: do 4 (split; [first [done | intros e He; split_events He; by intros [? ?]]|]).
  all: intros e d He Hd; split_events He; simpl in *; destruct Hd; simplify_eq.
  all: split; [done|]; by rewrite lookup_insert_eq.
Qed.

Lemma service_write_failure_isolated_witness :
  let w := Demo.world (Demo.freshStore 0)
             [None; None; None; None; Some ServiceUnavailable] in
  let w' := snd (Reconcile Demo.reconciler Demo.req w) in
  fst (Reconcile Demo.reconciler Demo.req w)
  = Returned Result.empty (Some (ErrStore ServiceUnavailable))
  ∧ apps (store w') = apps (store w)
  ∧ services (store w') = services (store w)
  ∧ is_Some (deployments (store w') !! ("default", "web-deployment")).
Proof.
  intros w w'.
  pose (owner := OwnerReference.mk "webapp.example.com/v1" "App" "web" "uid-1"
                   true true).
  pose (s := Service.mk
               (ObjectMeta.withOwnerReferences
                  (Service.Meta (desiredService (Demo.webApp 0))) [owner])
               (Service.Spec (desiredService (Demo.webApp 0)))).
  pose (d := Deployment.mk
               (ObjectMeta.withOwnerReferences
                  (Deployment.Meta (desiredDeployment (Demo.webApp 0))) [owner])
               (Deployment.Spec (desiredDeployment (Demo.webApp 0)))).
  pose (ev := mkEvent (ServiceCreate s) (Some (ErrStore ServiceUnavailable))).
  assert (issued w w' = [mkEvent (DeploymentCreate d) None; ev]) as Hiss
    by (by vm_compute).
  assert (ev ∈ issued w w') as Hin.
  { rewrite Hiss. apply list_elem_of_further, list_elem_of_here. }
  assert (isServiceWrite ev) as Hsv by (exists s; by left).
  destruct (service_write_failure_isolated Demo.reconciler Demo.req w ev
              (ErrStore ServiceUnavailable) Hin Hsv eq_refl)
    as (Hout & _ & Happs & Hsvc & Hdep).
  split; [exact Hout|]. split; [exact Happs|]. split; [exact Hsvc|].
  exists d.
  refine (proj2 (Hdep (mkEvent (DeploymentCreate d) None) d _ (or_introl eq_refl))).
  fold w'. rewrite Hiss. apply list_elem_of_here.
Defined.

(** ** Naming and convergence *)

Lemma singleton_of_length {A} (l : list A) :
  length l = 1%nat → ∃ y, l = [y].
Proof. destruct l as [|y [|? ?]]; simpl; intros; try done. by exists y. Qed.

(** C9. The desired children are named N-deployment and N-service and carry
    the label app=N, and so does every object a pass creates; after a pass
    that returned without error for an App that exists (on a well-formed
    store), the stored Deployment has the App's replica count and one
    container with the App's image exposing the App's port, and the stored
    Service has one port entry whose port and numeric target port are the
    App's port, with protocol TCP. *)
Theorem children_named_and_converged :
  (∀ app : App.t,
      ObjectMeta.Name (Deployment.Meta (desiredDeployment app))
      = String.append (App.Name app) "-deployment"
      ∧ ObjectMeta.Name (Service.Meta (desiredService app))
        = String.append (App.Name app) "-service"
      ∧ ObjectMeta.Labels (Deployment.Meta (desiredDeployment app)) !! "app"
        = Some (App.Name app)
      ∧ ObjectMeta.Labels (Service.Meta (desiredService app)) !! "app"
        = Some (App.Name app))
  ∧ (∀ r req w app ev,
        apps (store w) !! keyOf req = Some app →
        ev ∈ issued w (snd (Reconcile r req w)) →
        (∀ d, request ev = DeploymentCreate d →
              ObjectMeta.Name (Deployment.Meta d)
              = String.append (App.Name app) "-deployment"
              ∧ ObjectMeta.Labels (Deployment.Meta d) !! "app" = Some (App.Name app))
        ∧ (∀ s, request ev = ServiceCreate s →
                ObjectMeta.Name (Service.Meta s)
                = String.append (App.Name app) "-service"
                ∧ ObjectMeta.Labels (Service.Meta s) !! "app" = Some (App.Name app)))
  ∧ (∀ r req w res app,
        wfStore (store w) →
        apps (store w) !! keyOf req = Some app →
        fst (Reconcile r req w) = Returned res None →
        ∃ d c p s sp,
          deployments (store (snd (Reconcile r req w)))
            !! (App.Namespace app, String.append (App.Name app) "-deployment")
          = Some d
          ∧ DeploymentSpec.Replicas (Deployment.Spec d)
            = Some (AppSpec.Replicas (App.Spec app))
          ∧ DeploymentSpec.Containers (Deployment.Spec d) = [c]
          ∧ Container.Image c = AppSpec.Image (App.Spec app)
          ∧ Container.Ports c = [p]
          ∧ ContainerPort.ContainerPort p = AppSpec.Port (App.Spec app)
          ∧ services (store (snd (Reconcile r req w)))
              !! (App.Namespace app, String.append (App.Name app) "-service")
            = Some s
          ∧ ServiceSpec.Ports (Service.Spec s) = [sp]
          ∧ ServicePort.Port sp = AppSpec.Port (App.Spec app)
          ∧ IntOrString.IntValue (ServicePort.TargetPort sp)
            = AppSpec.Port (App.Spec app)
          ∧ ServicePort.Protocol sp = ProtocolTCP).
Proof.
  split; [|split].
  - intros app. destruct (desired_names app) as (? & ? & _).
    destruct (desired_labels app). done.
  - intros r req w app ev Happ.
    run_pass r req w; intros Hin; split_events Hin; simpl in *.
    all: unfold deploymentWrite, serviceWrite in *.
    all: repeat match goal with
                | H : _ ∨ _ |- _ => destruct H as [H|H]
                | H : ∃ _, _ |- _ => destruct H as (? & H)
                | H : _ ∧ _ |- _ => destruct H as (? & H)
                end; subst; simplify_eq.
    all: split; intros ? Hx; simplify_eq; simpl.
    all: match goal with
         | H : SetControllerReference _ _ _ = inr _ |- _ =>
             apply SetControllerReference_meta in H as (-> & _ & ->)
         end.
    all: destruct (desired_names app) as (? & ? & _).
    all: destruct (desired_labels app); done.
  - intros r req w res app Hwf Happ Hok.
    pose proof (Reconcile_pass r req w) as Hp. rewrite Hok in Hp.
    destruct (pass_converges _ _ _ _ _ _ Hwf Happ Hp)
      as ((d & Hd & Hde) & (s & Hs & Hse) & _).
    apply deploymentEqual_true in Hde as ((n & Hn & Hn') & Hlen & Hfirst).
    rewrite desiredDeployment_replicas in Hn'.
    rewrite desiredDeployment_containers in Hlen, Hfirst.
    apply singleton_of_length in Hlen as [c Hc]. rewrite Hc in Hfirst.
    destruct (Hfirst _ _ eq_refl eq_refl) as (Himg & Hpl & Hport). simpl in *.
    apply singleton_of_length in Hpl as [p Hpp]. rewrite Hpp in Hport.
    specialize (Hport _ _ eq_refl eq_refl). simpl in Hport.
    apply serviceEqual_true in Hse as (_ & Hsl & Hsp).
    rewrite desiredService_ports in Hsl, Hsp.
    apply singleton_of_length in Hsl as [sp Hsps]. rewrite Hsps in Hsp.
    destruct (Hsp _ _ eq_refl eq_refl) as (Hp1 & Hp2 & Hp3). simpl in *.
    exists d, c, p, s, sp. repeat split; try done. congruence.
Qed.

Lemma children_named_and_converged_witness :
  let w := Demo.world (Demo.freshStore 0) [] in
  ∃ d c p s sp,
    deployments (store (snd (Reconcile Demo.reconciler Demo.req w)))
      !! ("default", "web-deployment") = Some d
    ∧ DeploymentSpec.Replicas (Deployment.Spec d) = Some 3%Z
    ∧ DeploymentSpec.Containers (Deployment.Spec d) = [c]
    ∧ Container.Image c = "nginx:1.0"
    ∧ Container.Ports c = [p]
    ∧ ContainerPort.ContainerPort p = 8080%Z
    ∧ services (store (snd (Reconcile Demo.reconciler Demo.req w)))
        !! ("default", "web-service") = Some s
    ∧ ServiceSpec.Ports (Service.Spec s) = [sp]
    ∧ ServicePort.Port sp = 8080%Z
    ∧ IntOrString.IntValue (ServicePort.TargetPort sp) = 8080%Z
    ∧ ServicePort.Protocol sp = "TCP".
Proof.
  intros w.
  refine (proj2 (proj2 children_named_and_converged) Demo.reconciler Demo.req w
            (Result.mk false (30 * Second)) (Demo.webApp 0) _ _ _).
  - unfold wfStore, w, Demo.freshStore. simpl.
    repeat split; intros k x Hx.
    + apply lookup_singleton_Some in Hx as [<- <-]. reflexivity.
    + by rewrite lookup_empty in Hx.
    + by rewrite lookup_empty in Hx.
  - by vm_compute.
  - by vm_compute.
Defined.

Lemma updateStatus_spec_witness :
  let w := Demo.world (Demo.freshStore 1) [] in
  let w' := snd (updateStatus (Demo.webApp 1) Demo.threePods w) in
  readyPods Demo.threePods = 2%Z
  ∧ (∃ err, issued w w'
            = [mkEvent (AppStatusUpdate (withStatusReplicas (Demo.webApp 1) 2)) err])
  ∧ issued (Demo.world (Demo.freshStore 2) [])
      (snd (updateStatus (Demo.webApp 2) Demo.threePods
              (Demo.world (Demo.freshStore 2) []))) = [].
Proof.
  intros w w'.
  assert (Z.of_nat (length Demo.threePods) ≤ MaxInt32)%Z as Hlen
    by (vm_compute; discriminate).
  destruct (updateStatus_spec (Demo.webApp 1) Demo.threePods w Hlen)
    as (Hn & _ & Hne & _).
  destruct (updateStatus_spec (Demo.webApp 2) Demo.threePods
              (Demo.world (Demo.freshStore 2) []) Hlen)
    as (_ & Heq & _ & _).
  split; [exact Hn|]. split.
  - destruct Hne as (err & Hiss & _); [by vm_compute|]. exists err. exact Hiss.
  - apply Heq. reflexivity.
Defined.

(** * Further properties of the code *)

(** ** The policies are equivalence relations *)

(** X1. On specs whose replica count is set, [deploymentEqual] is reflexive,
    symmetric (panics included) and transitive. *)
Theorem deploymentEqual_equivalence :
  (∀ a n, DeploymentSpec.Replicas a = Some n → deploymentEqual a a = Some true)
  ∧ (∀ a b, deploymentEqual a b = deploymentEqual b a)
  ∧ (∀ a b c,
        deploymentEqual a b = Some true → deploymentEqual b c = Some true →
        deploymentEqual a c = Some true).
Proof.
  split; [exact deploymentEqual_refl|]. split.
  - intros a b. rewrite !deploymentEqual_policy.
    destruct (comparableDeployment a) as [[[ra|] na] ca],
             (comparableDeployment b) as [[[rb|] nb] cb]; simpl; try done.
    f_equal. apply bool_decide_ext. naive_solver.
  - intros a b c. rewrite !deploymentEqual_policy.
    destruct (comparableDeployment a) as [[[ra|] na] ca],
             (comparableDeployment b) as [[[rb|] nb] cb],
             (comparableDeployment c) as [[[rc|] nc] cc]; simpl; try done.
    intros [= H1] [= H2]. f_equal.
    apply bool_decide_eq_true in H1, H2. apply bool_decide_eq_true. naive_solver.
Qed.

Lemma deploymentEqual_equivalence_witness :
  deploymentEqual (Deployment.Spec (desiredDeployment (Demo.webApp 0)))
    (Deployment.Spec (desiredDeployment (Demo.webApp 0))) = Some true
  ∧ deploymentEqual (Deployment.Spec (desiredDeployment (Demo.webApp 0)))
      (Deployment.Spec Demo.driftedDeployment)
    = deploymentEqual (Deployment.Spec Demo.driftedDeployment)
        (Deployment.Spec (desiredDeployment (Demo.webApp 0))).
Proof.
  destruct deploymentEqual_equivalence as (Hr & Hs & _).
  split.
  - exact (Hr (Deployment.Spec (desiredDeployment (Demo.webApp 0))) 3%Z eq_refl).
  - apply Hs.
Defined.

(** X2. [serviceEqual] is reflexive, symmetric and transitive. *)
Theorem serviceEqual_equivalence :
  (∀ a, serviceEqual a a = true)
  ∧ (∀ a b, serviceEqual a b = serviceEqual b a)
  ∧ (∀ a b c,
        serviceEqual a b = true → serviceEqual b c = true → serviceEqual a c = true).
Proof.
  split; [exact serviceEqual_refl|]. split.
  - intros a b. rewrite !serviceEqual_policy. unfold servicePolicy.
    apply bool_decide_ext. naive_solver.
  - intros a b c. rewrite !serviceEqual_policy. unfold servicePolicy.
    rewrite !bool_decide_eq_true. congruence.
Qed.

(** ** The ready count without a bound on the list *)

Lemma wrap32_succ (a : Z) : wrap32 (wrap32 a + 1) = wrap32 (a + 1).
Proof.
  unfold wrap32. f_equal.
  replace ((a + 2 ^ 31) mod 2 ^ 32 - 2 ^ 31 + 1 + 2 ^ 31)%Z
    with ((a + 2 ^ 31) mod 2 ^ 32 + 1)%Z by lia.
  rewrite Z.add_mod_idemp_l by lia. f_equal. lia.
Qed.

Lemma countConditions_wrap (conds : list PodCondition.t) (n : Z) :
  countConditions conds (wrap32 n)
  = wrap32 (n + if existsb isReadyCondition conds then 1 else 0).
Proof.
  induction conds as [|c conds IH]; simpl; [by rewrite Z.add_0_r|].
  destruct (isReadyCondition c); simpl; [apply wrap32_succ|exact IH].
Qed.

Lemma countPods_wrap (items : list Pod.t) (n : Z) :
  countPods items (wrap32 n)
  = wrap32 (n + Z.of_nat (length (List.filter podIsReady items))).
Proof.
  revert n. induction items as [|p items IH]; intros n.
  { simpl. by rewrite Z.add_0_r. }
  cbn [countPods List.filter]. rewrite countConditions_wrap.
  fold (podIsReady p). rewrite IH.
  destruct (podIsReady p); [rewrite length_cons|]; f_equal; lia.
Qed.

Lemma readyPods_wrap_count (items : list Pod.t) :
  readyPods items = wrap32 (Z.of_nat (length (List.filter podIsReady items))).
Proof.
  unfold readyPods. change 0%Z with (wrap32 0) at 1. by rewrite countPods_wrap.
Qed.

(** X3. For every pod list the ready count is the number of pods with a
    true "Ready" condition, reduced into the signed 32-bit range; a list
    of 2^31 ready pods is counted as -2^31. *)
Theorem readyPods_wraps :
  (∀ items, readyPods items
            = wrap32 (Z.of_nat (length (List.filter podIsReady items))))
  ∧ (∀ pod, podIsReady pod = true →
            readyPods (replicate (Z.to_nat (2 ^ 31)) pod) = (- 2 ^ 31)%Z).
Proof.
  pose proof readyPods_wrap_count as H.
  split; [exact H|].
  intros pod Hp. rewrite H.
  assert (∀ n, List.filter podIsReady (replicate n pod) = replicate n pod) as ->.
  { induction n as [|n IH]; simpl; [done|]. by rewrite Hp, IH. }
  rewrite length_replicate, Z2Nat.id by lia. reflexivity.
Qed.

Lemma readyPods_wraps_witness :
  readyPods (replicate (Z.to_nat (2 ^ 31)) (Demo.pod "web-a" [Demo.ready]))
  = (- 2 ^ 31)%Z.
Proof.
  exact (proj2 readyPods_wraps (Demo.pod "web-a" [Demo.ready]) eq_refl).
Defined.

(** X4. The ready count does not depend on the order in which the pods are
    listed, and the count of a concatenation is the wrapped sum of the
    counts. *)
Theorem readyPods_order_independent :
  (∀ l1 l2 : list Pod.t, l1 ≡ₚ l2 → readyPods l1 = readyPods l2)
  ∧ (∀ l1 l2 : list Pod.t,
        readyPods (l1 ++ l2) = wrap32 (readyPods l1 + readyPods l2)).
Proof.
  pose proof readyPods_wrap_count as H. split; intros l1 l2.
  - intros Hperm. rewrite !H. do 2 f_equal. apply Permutation_length.
    clear H. induction Hperm as [|x l l' _ IH|x y l|l l' l'' _ IH1 _ IH2]; simpl.
    + done.
    + destruct (podIsReady x); [by constructor|done].
    + destruct (podIsReady x), (podIsReady y); try done; by constructor.
    + by etrans.
  - rewrite !H, List.filter_app, length_app, Nat2Z.inj_add.
    unfold wrap32. f_equal.
    set (a := Z.of_nat (length (List.filter podIsReady l1))).
    set (b := Z.of_nat (length (List.filter podIsReady l2))).
    replace ((a + 2 ^ 31) mod 2 ^ 32 - 2 ^ 31
             + ((b + 2 ^ 31) mod 2 ^ 32 - 2 ^ 31) + 2 ^ 31)%Z
      with ((a + 2 ^ 31) mod 2 ^ 32 + ((b + 2 ^ 31) mod 2 ^ 32 - 2 ^ 31))%Z by lia.
    rewrite Z.add_mod_idemp_l by lia.
    replace (a + 2 ^ 31 + ((b + 2 ^ 31) mod 2 ^ 32 - 2 ^ 31))%Z
      with ((b + 2 ^ 31) mod 2 ^ 32 + a)%Z by lia.
    rewrite Z.add_mod_idemp_l by lia. f_equal. lia.
Qed.

Lemma readyPods_order_independent_witness :
  readyPods (reverse Demo.threePods) = readyPods Demo.threePods.
Proof.
  apply (proj1 readyPods_order_independent). apply reverse_Permutation.
Defined.

(** ** How a pass ends, and what it writes *)

Ltac open_writes :=
  unfold deploymentWrite, serviceWrite in *;
  repeat match goal with
         | H : _ ∨ _ |- _ => destruct H as [H|H]
         | H : ∃ _, _ |- _ => destruct H as (? & H)
         | H : _ ∧ _ |- _ => destruct H as (? & H)
         end;
  subst; simplify_eq; simpl in *.

(** X5. A pass that returns an error never asks to be run again: every
    error comes with the empty result. *)
Theorem error_means_no_requeue (r : AppReconciler) (req : NamespacedName)
    (w : World) (res : Result.t) (err : Error) :
  fst (Reconcile r req w) = Returned res (Some err) →
  res = Result.empty
  ∧ Result.Requeue res = false ∧ Result.RequeueAfter res = 0%Z.
Proof.
  intros Hok. pose proof (Reconcile_pass r req w) as Hp. rewrite Hok in Hp.
  assert (res = Result.empty) as ->; [|done].
  inversion Hp; subst; try done; invert_paths; simpl in *; congruence.
Qed.

Lemma error_means_no_requeue_witness :
  fst (Reconcile Demo.reconciler Demo.req
         (Demo.world (Demo.freshStore 0) [None; Some ServerTimeout]))
  = Returned Result.empty (Some (ErrStore ServerTimeout)).
Proof.
  assert (fst (Reconcile Demo.reconciler Demo.req
                 (Demo.world (Demo.freshStore 0) [None; Some ServerTimeout]))
          = Returned Result.empty (Some (ErrStore ServerTimeout))) as H
    by (by vm_compute).
  destruct (error_means_no_requeue _ _ _ _ _ H) as (_ & _ & _). exact H.
Defined.

(** X6. A pass issues at most three writes, at most one for each of the
    Deployment, the Service and the status, and in that order. *)
Theorem writes_in_step_order (r : AppReconciler) (req : NamespacedName) (w : World) :
  StronglySorted lt
    (map (λ ev, writeRank (request ev)) (issued w (snd (Reconcile r req w))))
  ∧ (length (issued w (snd (Reconcile r req w))) ≤ 3)%nat.
Proof.
  run_pass r req w; open_writes; (split; [repeat constructor|lia]).
Qed.

(** X7. A write that comes back with an error is the last thing the pass
    does, and the pass returns that very error; so a pass that returns
    without error has had all its writes go through. *)
Theorem failed_write_ends_pass (r : AppReconciler) (req : NamespacedName)
    (w : World) (ev : Event) :
  ev ∈ issued w (snd (Reconcile r req w)) →
  (∀ err, failure ev = Some err →
          last (issued w (snd (Reconcile r req w))) = Some ev
          ∧ fst (Reconcile r req w) = Returned Result.empty (Some err))
  ∧ (∀ res, fst (Reconcile r req w) = Returned res None → failure ev = None).
Proof.
  run_pass r req w; intros Hin; split_events Hin; simpl.
  all: split; [intros ? [= ->]|intros ? [= <-]]; done.
Qed.

Lemma failed_write_ends_pass_witness :
  let w := Demo.world (Demo.freshStore 0) [None; None; Some Conflict] in
  fst (Reconcile Demo.reconciler Demo.req w)
  = Returned Result.empty (Some (ErrStore Conflict))
  ∧ length (issued w (snd (Reconcile Demo.reconciler Demo.req w))) = 1%nat.
Proof.
  intros w.
  pose (owner := controllerRef "webapp.example.com/v1" "App" (Demo.webApp 0)).
  pose (d := Deployment.mk
               (ObjectMeta.withOwnerReferences
                  (Deployment.Meta (desiredDeployment (Demo.webApp 0))) [owner])
               (Deployment.Spec (desiredDeployment (Demo.webApp 0)))).
  pose (ev := mkEvent (DeploymentCreate d) (Some (ErrStore Conflict))).
  assert (issued w (snd (Reconcile Demo.reconciler Demo.req w)) = [ev]) as Hiss
    by (by vm_compute).
  assert (ev ∈ issued w (snd (Reconcile Demo.reconciler Demo.req w))) as Hin
    by (rewrite Hiss; apply list_elem_of_here).
  destruct (proj1 (failed_write_ends_pass Demo.reconciler Demo.req w ev Hin)
              (ErrStore Conflict) eq_refl) as [_ Hout].
  split; [exact Hout|]. by rewrite Hiss.
Defined.



(** ** What a pass leaves alone *)

Lemma driftedStore_wf : wfStore Demo.driftedStore.
Proof.
  unfold wfStore, Demo.driftedStore. simpl.
  repeat split; intros k x Hx.
  - apply lookup_singleton_Some in Hx as [<- <-]. reflexivity.
  - apply lookup_singleton_Some in Hx as [<- <-]. reflexivity.
  - by rewrite lookup_empty in Hx.
Qed.


(** On a well-formed store, every object the pass reads or writes sits under
    the key the pass derives from the App. *)
Ltac own_keys Hwa Hwd Hws :=
  repeat match goal with
         | H : SetControllerReference _ (Deployment.Meta (desiredDeployment _)) _
               = inr _ |- _ =>
             apply SetControllerReference_key in H;
             rewrite desiredDeployment_key in H; rewrite ?H
         | H : SetControllerReference _ (Service.Meta (desiredService _)) _
               = inr _ |- _ =>
             apply SetControllerReference_key in H;
             rewrite desiredService_key in H; rewrite ?H
         | H : deployments _ !! deploymentKey _ = Some ?found
           |- context [metaKey (Deployment.Meta ?found)] =>
             rewrite (Hwd _ _ H)
         | H : services _ !! serviceKey _ = Some ?found
           |- context [metaKey (Service.Meta ?found)] =>
             rewrite (Hws _ _ H)
         | H : apps _ !! keyOf _ = Some ?app
           |- context [metaKey (App.Meta ?app)] =>
             rewrite (Hwa _ _ H)
         | H : apps _ !! keyOf _ = Some ?app,
           H' : context [metaKey (App.Meta ?app)] |- _ =>
             rewrite (Hwa _ _ H) in H'
         end.

(** X9. On a well-formed store a pass never removes an object and never
    changes an object's metadata: the store stays well-formed, every App
    keeps its metadata, spec and status conditions (only the replica count
    of the reconciled App's status can change), and every stored Deployment
    and Service is still stored, under the same key and with the same
    metadata. *)
Theorem pass_keeps_objects (r : AppReconciler) (req : NamespacedName) (w : World) :
  wfStore (store w) →
  wfStore (store (snd (Reconcile r req w)))
  ∧ (∀ k, match apps (store w) !! k with
          | Some a =>
              ∃ a', apps (store (snd (Reconcile r req w))) !! k = Some a'
                    ∧ App.Meta a' = App.Meta a ∧ App.Spec a' = App.Spec a
                    ∧ AppStatus.Conditions (App.Status a')
                      = AppStatus.Conditions (App.Status a)
                    ∧ (k ≠ keyOf req → a' = a)
          | None => apps (store (snd (Reconcile r req w))) !! k = None
          end)
  ∧ (∀ k d, deployments (store w) !! k = Some d →
            ∃ d', deployments (store (snd (Reconcile r req w))) !! k = Some d'
                  ∧ Deployment.Meta d' = Deployment.Meta d)
  ∧ (∀ k s, services (store w) !! k = Some s →
            ∃ s', services (store (snd (Reconcile r req w))) !! k = Some s'
                  ∧ Service.Meta s' = Service.Meta s).
Proof.
  intros (Hwa & Hwd & Hws).
  run_pass r req w; open_writes.
  all: own_keys Hwa Hwd Hws.
  all: repeat match goal with
              | H : apps ?st !! ?k = Some ?a, H' : apps ?st !! ?k = Some ?b |- _ =>
                  rewrite H in H'; injection H' as <-
              end.
  all: unfold wfStore; simpl.
  all: split; [repeat split; intros ? ?; rewrite ?lookup_insert;
               repeat case_decide; subst; try (intros [= <-]); simpl; eauto|].
  all: split;
    [intros k; destruct (apps _ !! k) as [a|] eqn:Ea; rewrite ?lookup_insert;
     repeat case_decide; subst; simplify_eq; try done;
     eexists; (split; [done|]); simpl; repeat split; try done; intros; congruence|].
  all: split; intros ? ? Hx; rewrite ?lookup_insert; repeat case_decide; subst;
    simplify_eq; eauto.
Qed.

Lemma pass_keeps_objects_witness :
  let st' := store (snd (Reconcile Demo.reconciler Demo.req
                           (Demo.world Demo.driftedStore []))) in
  wfStore st'
  ∧ ∃ d', deployments st' !! ("default", "web-deployment") = Some d'
          ∧ Deployment.Meta d' = Deployment.Meta Demo.driftedDeployment.
Proof.
  intros st'.
  destruct (pass_keeps_objects Demo.reconciler Demo.req
              (Demo.world Demo.driftedStore []) driftedStore_wf)
    as (Hwf & _ & Hd & _).
  split; [exact Hwf|].
  apply (Hd ("default", "web-deployment") Demo.driftedDeployment).
  by vm_compute.
Defined.

(** X10. On a well-formed store a pass changes no Deployment and no Service
    other than the two children of the App it reconciles: a Deployment entry
    that differs afterwards is the one named N-deployment in the App's
    namespace, a Service entry that differs is N-service. *)
Theorem pass_touches_only_own_children (r : AppReconciler) (req : NamespacedName)
    (w : World) :
  wfStore (store w) →
  (∀ k, deployments (store (snd (Reconcile r req w))) !! k
        ≠ deployments (store w) !! k →
        ∃ app, apps (store w) !! keyOf req = Some app
               ∧ k = (App.Namespace app, String.append (App.Name app) "-deployment"))
  ∧ (∀ k, services (store (snd (Reconcile r req w))) !! k
          ≠ services (store w) !! k →
          ∃ app, apps (store w) !! keyOf req = Some app
                 ∧ k = (App.Namespace app, String.append (App.Name app) "-service")).
Proof.
  intros (Hwa & Hwd & Hws).
  run_pass r req w; open_writes.
  all: own_keys Hwa Hwd Hws.
  all: repeat match goal with
              | H : apps ?st !! ?k = Some ?a, H' : apps ?st !! ?k = Some ?b |- _ =>
                  rewrite H in H'; injection H' as <-
              end.
  all: split; intros k; rewrite ?lookup_insert; repeat case_decide; subst;
    try done; intros _; eexists; (split; [eassumption|]); reflexivity.
Qed.

Lemma pass_touches_only_own_children_witness :
  ∃ app, apps Demo.driftedStore !! keyOf Demo.req = Some app
         ∧ ("default", "web-deployment")
           = (App.Namespace app, String.append (App.Name app) "-deployment").
Proof.
  refine (proj1 (pass_touches_only_own_children Demo.reconciler Demo.req
                   (Demo.world Demo.driftedStore []) driftedStore_wf)
            ("default", "web-deployment") _).
  by vm_compute.
Defined.

(** ** Errors on the way *)

Lemma Reconcile_found (r : AppReconciler) (req : NamespacedName) (w : World)
    (app : App.t) :
  fst (client.GetApp (keyOf req) w) = inr app →
  Reconcile r req w
  = (outcomeOf (fst (reconcileFetched r app (snd (client.GetApp (keyOf req) w)))),
     snd (reconcileFetched r app (snd (client.GetApp (keyOf req) w)))).
Proof.
  intros Hget. unfold Reconcile, reconcileSteps. rewrite M_bind_run. unfold call.
  destruct (client.GetApp (keyOf req) w) as [got w0]. simpl in *. subst got.
  fold (reconcileFetched r app).
  by destruct (reconcileFetched r app w0) as [[[]| |] ?].
Qed.

(** X11. When the fetch of the App fails with anything but absence, the pass
    returns that error unchanged, issues no write and leaves the store as it
    is. *)
Theorem fetch_error_propagates (r : AppReconciler) (req : NamespacedName)
    (w : World) (err : Error) :
  fst (client.GetApp (keyOf req) w) = inl err →
  IsNotFound err = false →
  fst (Reconcile r req w) = Returned Result.empty (Some err)
  ∧ issued w (snd (Reconcile r req w)) = []
  ∧ store (snd (Reconcile r req w)) = store w.
Proof.
  intros Hget Hnf.
  destruct (GetApp_result (keyOf req) w) as (Hst & Htr & _).
  unfold Reconcile, reconcileSteps. rewrite M_bind_run. unfold call.
  destruct (client.GetApp (keyOf req) w) as [got w0]. simpl in *. subst got.
  rewrite Hnf. simpl. split; [done|]. split; [by apply issued_nothing|done].
Qed.

Lemma fetch_error_propagates_witness :
  fst (Reconcile Demo.reconciler Demo.req
         (Demo.world (Demo.freshStore 0) [Some ServiceUnavailable]))
  = Returned Result.empty (Some (ErrStore ServiceUnavailable)).
Proof.
  exact (proj1 (fetch_error_propagates Demo.reconciler Demo.req
                  (Demo.world (Demo.freshStore 0) [Some ServiceUnavailable])
                  (ErrStore ServiceUnavailable) eq_refl eq_refl)).
Defined.

(** X12. When the ownership link cannot be attached to the desired
    Deployment, the pass returns that error before it has read or written
    any child: no write is issued and the store is as it was. *)
Theorem owner_link_error_aborts (r : AppReconciler) (req : NamespacedName)
    (w : World) (app : App.t) (err : Error) :
  fst (client.GetApp (keyOf req) w) = inr app →
  SetControllerReference app (Deployment.Meta (desiredDeployment app)) (scheme r)
  = inl err →
  fst (Reconcile r req w) = Returned Result.empty (Some err)
  ∧ issued w (snd (Reconcile r req w)) = []
  ∧ store (snd (Reconcile r req w)) = store w.
Proof.
  intros Hget Hown.
  destruct (GetApp_result (keyOf req) w) as (Hst & Htr & _).
  rewrite (Reconcile_found _ _ _ _ Hget). unfold reconcileFetched.
  rewrite M_bind_run.
  unfold reconcileDeployment. rewrite Hown. unfold exit. simpl.
  split; [done|]. split; [by apply issued_nothing|done].
Qed.

Lemma owner_link_error_aborts_witness :
  ∃ reason,
    fst (Reconcile Corner.unregistered Demo.req (Demo.world (Demo.freshStore 0) []))
    = Returned Result.empty (Some (ErrOwnerLink reason))
    ∧ issued (Demo.world (Demo.freshStore 0) [])
        (snd (Reconcile Corner.unregistered Demo.req
                (Demo.world (Demo.freshStore 0) []))) = [].
Proof.
  eexists.
  refine ((λ H, conj (proj1 H) (proj1 (proj2 H)))
            (owner_link_error_aborts Corner.unregistered Demo.req
               (Demo.world (Demo.freshStore 0) []) (Demo.webApp 0) _ _ _)).
  - by vm_compute.
  - by vm_compute.
Defined.

(** X13. When the Deployment exists or not cannot be told, because its fetch
    fails with anything but absence, nothing is created: the pass returns
    that error, issues no write and leaves the store as it is. *)
Theorem deployment_fetch_error_aborts (r : AppReconciler) (req : NamespacedName)
    (w : World) (app : App.t) (meta : ObjectMeta.t) (err : Error) :
  fst (client.GetApp (keyOf req) w) = inr app →
  SetControllerReference app (Deployment.Meta (desiredDeployment app)) (scheme r)
  = inr meta →
  fst (client.GetDeployment (deploymentKey app) (snd (client.GetApp (keyOf req) w)))
  = inl err →
  IsNotFound err = false →
  fst (Reconcile r req w) = Returned Result.empty (Some err)
  ∧ issued w (snd (Reconcile r req w)) = []
  ∧ store (snd (Reconcile r req w)) = store w.
Proof.
  intros Hget Hown Hgd Hnf.
  destruct (GetApp_result (keyOf req) w) as (Hst & Htr & _).
  rewrite (Reconcile_found _ _ _ _ Hget). unfold reconcileFetched.
  rewrite M_bind_run.
  unfold reconcileDeployment. rewrite Hown. simpl.
  rewrite (SetControllerReference_key _ _ _ _ Hown), desiredDeployment_key.
  rewrite M_bind_run. unfold call at 1.
  destruct (snd (client.GetApp (keyOf req) w)) as [st fs tr]. simpl in *.
  revert Hgd. unfold client.GetDeployment, client.nextFault. simpl.
  destruct fs as [|[f|] fs]; simpl;
    try destruct (deployments st !! deploymentKey app); simpl;
    intros [= <-]; try done; simpl;
    (split; [done|]); (split; [by apply issued_nothing|done]).
Qed.

Lemma deployment_fetch_error_aborts_witness :
  fst (Reconcile Demo.reconciler Demo.req
         (Demo.world (Demo.freshStore 0) [None; Some ServerTimeout]))
  = Returned Result.empty (Some (ErrStore ServerTimeout))
  ∧ issued (Demo.world (Demo.freshStore 0) [None; Some ServerTimeout])
      (snd (Reconcile Demo.reconciler Demo.req
              (Demo.world (Demo.freshStore 0) [None; Some ServerTimeout]))) = [].
Proof.
  refine ((λ H, conj (proj1 H) (proj1 (proj2 H)))
            (deployment_fetch_error_aborts Demo.reconciler Demo.req
               (Demo.world (Demo.freshStore 0) [None; Some ServerTimeout])
               (Demo.webApp 0)
               (ObjectMeta.withOwnerReferences
                  (Deployment.Meta (desiredDeployment (Demo.webApp 0)))
                  [controllerRef "webapp.example.com/v1" "App" (Demo.webApp 0)])
               (ErrStore ServerTimeout) _ _ _ _)).
  all: by vm_compute.
Defined.

(** X14. The only way a pass panics is a stored Deployment without a replica
    count, and it does so before writing anything. *)
Theorem panic_only_on_nil_replicas (r : AppReconciler) (req : NamespacedName)
    (w : World) :
  fst (Reconcile r req w) = Panicked →
  ∃ app found,
    apps (store w) !! keyOf req = Some app
    ∧ deployments (store w) !! deploymentKey app = Some found
    ∧ DeploymentSpec.Replicas (Deployment.Spec found) = None
    ∧ issued w (snd (Reconcile r req w)) = []
    ∧ store (snd (Reconcile r req w)) = store w.
Proof.
  intros Hp. pose proof (Reconcile_pass r req w) as HP. rewrite Hp in HP.
  inversion HP as [| |app w0 s w1 Ha Hst Htr Hd Hne Ho|? ? ? s ? ? ? ? ? Hs Hne Ho
                  |? ? ? ? s ? ? ? ? ? ? Ht Hne Ho|]; subst.
  - inversion Hd as [|found ? Hst1 Htr1 Hf He| | |]; subst; try done.
    exists app, found. rewrite Hst in Hf. split; [done|]. split; [done|].
    apply deploymentEqual_total in He as [He|He];
      [|by rewrite desiredDeployment_replicas in He].
    split; [done|]. split; [apply issued_nothing|]; congruence.
  - inversion Hs; subst; done.
  - inversion Ht; subst; done.
Qed.

Lemma panic_only_on_nil_replicas_witness :
  fst (Reconcile Demo.reconciler Demo.req (Demo.world Corner.bareStore []))
  = Panicked
  ∧ ∃ app found,
      deployments Corner.bareStore !! deploymentKey app = Some found
      ∧ DeploymentSpec.Replicas (Deployment.Spec found) = None.
Proof.
  assert (fst (Reconcile Demo.reconciler Demo.req (Demo.world Corner.bareStore []))
          = Panicked) as H by (by vm_compute).
  split; [exact H|].
  destruct (panic_only_on_nil_replicas _ _ _ H) as (app & found & _ & Hf & Hr & _).
  exists app, found. split; [exact Hf | exact Hr].
Defined.

(** ** Creation *)

Local Transparent desiredDeployment desiredService.

Lemma SetControllerReference_registered (app : App.t) (sch : Scheme)
    (apiVersion kind : string) :
  gvkForApp sch = Some (apiVersion, kind) →
  SetControllerReference app (Deployment.Meta (desiredDeployment app)) sch
  = inr (ObjectMeta.withOwnerReferences (Deployment.Meta (desiredDeployment app))
           [controllerRef apiVersion kind app])
  ∧ SetControllerReference app (Service.Meta (desiredService app)) sch
    = inr (ObjectMeta.withOwnerReferences (Service.Meta (desiredService app))
             [controllerRef apiVersion kind app]).
Proof.
  intros Hg. unfold SetControllerReference. rewrite Hg. simpl.
  destruct (String.eqb_spec (App.Namespace app) "") as [->|Hne]; simpl; [done|].
  by rewrite String.eqb_refl.
Qed.

Lemma SetControllerReference_desired (app : App.t) (sch : Scheme) (meta : ObjectMeta.t) :
  SetControllerReference app (Deployment.Meta (desiredDeployment app)) sch = inr meta
  ∨ SetControllerReference app (Service.Meta (desiredService app)) sch = inr meta →
  ∃ apiVersion kind,
    gvkForApp sch = Some (apiVersion, kind)
    ∧ ObjectMeta.OwnerReferences meta = [controllerRef apiVersion kind app]
    ∧ ObjectMeta.Labels meta
      = {[ "app" := App.Name app; "controller" := "app-controller" ]}.
Proof.
  destruct (gvkForApp sch) as [[v k]|] eqn:Hg.
  - destruct (SetControllerReference_registered app sch v k Hg) as [Hd Hs].
    intros [H|H]; [rewrite Hd in H|rewrite Hs in H]; injection H as <-;
      by exists v, k.
  - unfold SetControllerReference. rewrite Hg.
    intros [H|H]; repeat case_match; done.
Qed.

Local Opaque desiredDeployment desiredService.

(** X15. A child is created only when none is stored under its key; the
    object sent carries the desired spec, the labels app=N and
    controller=app-controller, and exactly one owner reference, the
    controller reference to the App; a create that goes through is what the
    store holds afterwards. *)
Theorem create_only_when_absent (r : AppReconciler) (req : NamespacedName)
    (w : World) (ev : Event) :
  ev ∈ issued w (snd (Reconcile r req w)) →
  (∀ d, request ev = DeploymentCreate d →
        ∃ app apiVersion kind,
          apps (store w) !! keyOf req = Some app
          ∧ deployments (store w) !! deploymentKey app = None
          ∧ gvkForApp (scheme r) = Some (apiVersion, kind)
          ∧ Deployment.Spec d = Deployment.Spec (desiredDeployment app)
          ∧ ObjectMeta.OwnerReferences (Deployment.Meta d)
            = [controllerRef apiVersion kind app]
          ∧ ObjectMeta.Labels (Deployment.Meta d)
            = {[ "app" := App.Name app; "controller" := "app-controller" ]}
          ∧ (failure ev = None →
             deployments (store (snd (Reconcile r req w))) !! deploymentKey app
             = Some d))
  ∧ (∀ s, request ev = ServiceCreate s →
        ∃ app apiVersion kind,
          apps (store w) !! keyOf req = Some app
          ∧ services (store w) !! serviceKey app = None
          ∧ gvkForApp (scheme r) = Some (apiVersion, kind)
          ∧ Service.Spec s = Service.Spec (desiredService app)
          ∧ ObjectMeta.OwnerReferences (Service.Meta s)
            = [controllerRef apiVersion kind app]
          ∧ ObjectMeta.Labels (Service.Meta s)
            = {[ "app" := App.Name app; "controller" := "app-controller" ]}
          ∧ (failure ev = None →
             services (store (snd (Reconcile r req w))) !! serviceKey app
             = Some s)).
Proof.
  run_pass r req w; intros Hin; split_events Hin.
  all: open_writes.
  all: split; intros ? Hx; simplify_eq.
  all: repeat match goal with
       | H : SetControllerReference _ (Deployment.Meta _) _ = inr ?m |- _ =>
           let Hk := fresh "Hk" in
           pose proof (SetControllerReference_key _ _ _ _ H) as Hk;
           rewrite desiredDeployment_key in Hk;
           destruct (SetControllerReference_desired _ _ _ (or_introl H))
             as (? & ? & ? & ? & ?);
           clear H
       | H : SetControllerReference _ (Service.Meta _) _ = inr ?m |- _ =>
           let Hk := fresh "Hk" in
           pose proof (SetControllerReference_key _ _ _ _ H) as Hk;
           rewrite desiredService_key in Hk;
           destruct (SetControllerReference_desired _ _ _ (or_intror H))
             as (? & ? & ? & ? & ?);
           clear H
       end.
  all: simplify_eq.
  all: eexists _, _, _; do 3 (split; [eassumption|]); simpl.
  all: do 3 (split; [done|]).
  all: intros Hf; try done.
  all: match goal with
       | Hk : metaKey ?x = ?key |- context [<[metaKey ?x := _]> _] =>
           rewrite Hk
       end; by rewrite lookup_insert_eq.
Qed.

Lemma create_only_when_absent_witness :
  let w := Demo.world (Demo.freshStore 0) [] in
  ∃ d, deployments (store (snd (Reconcile Demo.reconciler Demo.req w)))
         !! ("default", "web-deployment") = Some d
       ∧ ObjectMeta.OwnerReferences (Deployment.Meta d)
         = [OwnerReference.mk "webapp.example.com/v1" "App" "web" "uid-1" true true].
Proof.
  intros w.
  pose (d := Deployment.mk
               (ObjectMeta.withOwnerReferences
                  (Deployment.Meta (desiredDeployment (Demo.webApp 0)))
                  [controllerRef "webapp.example.com/v1" "App" (Demo.webApp 0)])
               (Deployment.Spec (desiredDeployment (Demo.webApp 0)))).
  pose (ev := mkEvent (DeploymentCreate d) None).
  assert (ev ∈ issued w (snd (Reconcile Demo.reconciler Demo.req w))) as Hin.
  { replace (issued w (snd (Reconcile Demo.reconciler Demo.req w)))
      with (ev :: drop 1 (issued w (snd (Reconcile Demo.reconciler Demo.req w))))
      by (by vm_compute).
    apply list_elem_of_here. }
  destruct (proj1 (create_only_when_absent Demo.reconciler Demo.req w ev Hin)
              d eq_refl)
    as (app & v & k & Ha & _ & _ & _ & _ & _ & Hst).
  assert (app = Demo.webApp 0) as ->.
  { assert (apps (store w) !! keyOf Demo.req = Some (Demo.webApp 0)) as Ha'
      by (by vm_compute).
    congruence. }
  exists d. split; [exact (Hst eq_refl)|reflexivity].
Defined.

(** ** A pass that no fault strikes *)

Lemma nextFault_calm (w : World) :
  calm w →
  ∃ w1, client.nextFault w = (None, w1)
        ∧ store w1 = store w ∧ trace w1 = trace w ∧ calm w1.
Proof.
  destruct w as [st fs tr]. unfold calm, client.nextFault. simpl. intros Hc.
  destruct fs as [|f fs]; [by eexists|].
  inversion Hc as [|? ? -> Hfs]; subst. by eexists.
Qed.

Ltac calm_call Hc :=
  let w1 := fresh "w" in
  let Hs := fresh "Hs" in
  let Ht := fresh "Ht" in
  let Hc1 := fresh "Hc" in
  destruct (nextFault_calm _ Hc) as (w1 & -> & Hs & Ht & Hc1).

Lemma metaKey_withOwnerReferences (m : ObjectMeta.t) (refs : list OwnerReference.t) :
  metaKey (ObjectMeta.withOwnerReferences m refs) = metaKey m.
Proof. reflexivity. Qed.

Lemma reconcileDeployment_calm (r : AppReconciler) (app : App.t) (w : World)
    (apiVersion kind : string) :
  calm w →
  (∀ k d, deployments (store w) !! k = Some d → metaKey (Deployment.Meta d) = k) →
  gvkForApp (scheme r) = Some (apiVersion, kind) →
  (∀ found, deployments (store w) !! deploymentKey app = Some found →
            DeploymentSpec.Replicas (Deployment.Spec found) ≠ None) →
  ∃ w', reconcileDeployment r app w = (Next tt, w') ∧ calm w'.
Proof.
  intros Hc Hwf Hg Hnil. unfold reconcileDeployment.
  rewrite (proj1 (SetControllerReference_registered app _ _ _ Hg)).
  cbn [Deployment.Meta Deployment.Spec].
  rewrite metaKey_withOwnerReferences, desiredDeployment_key.
  rewrite M_bind_run. unfold call at 1, client.GetDeployment.
  calm_call Hc. rewrite Hs.
  destruct (deployments (store w) !! deploymentKey app) as [found|] eqn:Hf.
  - rewrite M_bind_run. unfold orPanic.
    destruct (deploymentEqual (Deployment.Spec found)
                (Deployment.Spec (desiredDeployment app))) as [[]|] eqn:He.
    + by eexists.
    + cbn [negb]. rewrite M_bind_run. unfold call, client.UpdateDeployment.
      calm_call Hc0. cbn [Deployment.Meta].
      rewrite Hs0, Hs, (Hwf _ _ Hf), Hf. by eexists.
    + apply deploymentEqual_total in He as [He|He].
      * destruct (Hnil _ eq_refl He).
      * by rewrite desiredDeployment_replicas in He.
  - cbn [IsNotFound]. rewrite M_bind_run. unfold call, client.CreateDeployment.
    calm_call Hc0. cbn [Deployment.Meta].
    rewrite metaKey_withOwnerReferences, desiredDeployment_key, Hs0, Hs, Hf.
    by eexists.
Qed.

Lemma reconcileService_calm (r : AppReconciler) (app : App.t) (w : World)
    (apiVersion kind : string) :
  calm w →
  (∀ k s, services (store w) !! k = Some s → metaKey (Service.Meta s) = k) →
  gvkForApp (scheme r) = Some (apiVersion, kind) →
  ∃ w', reconcileService r app w = (Next tt, w') ∧ calm w'.
Proof.
  intros Hc Hwf Hg. unfold reconcileService.
  rewrite (proj2 (SetControllerReference_registered app _ _ _ Hg)).
  cbn [Service.Meta Service.Spec].
  rewrite metaKey_withOwnerReferences, desiredService_key.
  rewrite M_bind_run. unfold call at 1, client.GetService.
  calm_call Hc. rewrite Hs.
  destruct (services (store w) !! serviceKey app) as [found|] eqn:Hf.
  - destruct (serviceEqual (Service.Spec found)
                (Service.Spec (desiredService app))) eqn:He.
    + by eexists.
    + cbn [negb]. rewrite M_bind_run. unfold call, client.UpdateService.
      calm_call Hc0. cbn [Service.Meta].
      rewrite Hs0, Hs, (Hwf _ _ Hf), Hf. by eexists.
  - cbn [IsNotFound]. rewrite M_bind_run. unfold call, client.CreateService.
    calm_call Hc0. cbn [Service.Meta].
    rewrite metaKey_withOwnerReferences, desiredService_key, Hs0, Hs, Hf.
    by eexists.
Qed.

Lemma reconcileStatus_calm (app : App.t) (w : World) :
  calm w →
  apps (store w) !! metaKey (App.Meta app) = Some app →
  ∃ w', reconcileStatus app w = (Next tt, w') ∧ calm w'.
Proof.
  intros Hc Ha. unfold reconcileStatus.
  rewrite M_bind_run. unfold call at 1, client.ListPods.
  calm_call Hc. unfold updateStatus.
  destruct (_ =? _)%Z; cbn [negb]; [by eexists|].
  rewrite M_bind_run. unfold call, client.StatusUpdate.
  calm_call Hc0. unfold withStatusReplicas. cbn [App.Meta].
  rewrite Hs0, Hs, Ha. by eexists.
Qed.

Lemma GetApp_calm (key : Key) (w : World) (app : App.t) :
  calm w → apps (store w) !! key = Some app →
  ∃ w0, client.GetApp key w = (inr app, w0) ∧ store w0 = store w ∧ calm w0.
Proof.
  intros Hc Ha. unfold client.GetApp. calm_call Hc. rewrite Hs, Ha. by eexists.
Qed.

(** X16. When no fault strikes, the scheme knows the App type, the App
    exists in a well-formed store and a stored Deployment (if any) has its
    replica count set, the pass goes through all its steps: it returns
    without error, asks for the next pass in 30 seconds, and leaves both
    children stored and equal to the desired state under the policy, with
    the ready count in the App's status. *)
Theorem calm_pass_succeeds (r : AppReconciler) (req : NamespacedName) (w : World)
    (app : App.t) (apiVersion kind : string) :
  wfStore (store w) →
  calm w →
  apps (store w) !! keyOf req = Some app →
  gvkForApp (scheme r) = Some (apiVersion, kind) →
  (∀ found, deployments (store w) !! deploymentKey app = Some found →
            DeploymentSpec.Replicas (Deployment.Spec found) ≠ None) →
  fst (Reconcile r req w) = Returned (Result.mk false (30 * Second)) None
  ∧ Converged app (store (snd (Reconcile r req w))).
Proof.
  intros Hwf Hc Ha Hg Hnil.
  assert (fst (Reconcile r req w) = Returned (Result.mk false (30 * Second)) None)
    as Hok.
  { destruct Hwf as (Hwa & Hwd & Hws).
    destruct (GetApp_calm _ _ _ Hc Ha) as (w0 & Hget & Hs0 & Hc0).
    rewrite (Reconcile_found r req w app) by (by rewrite Hget).
    rewrite Hget. cbn [fst snd]. unfold reconcileFetched.
    rewrite M_bind_run.
    pose proof (reconcileDeployment_path r app w0) as Hpd.
    destruct (reconcileDeployment_calm r app w0 apiVersion kind Hc0)
      as (w1 & Hd & Hc1); [by rewrite Hs0|done|by rewrite Hs0|].
    rewrite Hd in Hpd |- *. cbn [fst snd] in Hpd.
    apply DeploymentPath_next in Hpd as (Ha1 & Hs1 & _); [|by rewrite Hs0].
    rewrite M_bind_run.
    pose proof (reconcileService_path r app w1) as Hps.
    destruct (reconcileService_calm r app w1 apiVersion kind Hc1)
      as (w2 & Hsv & Hc2); [by rewrite Hs1, Hs0|done|].
    rewrite Hsv in Hps |- *. cbn [fst snd] in Hps.
    apply ServicePath_next in Hps as (Ha2 & _); [|by rewrite Hs1, Hs0].
    rewrite M_bind_run.
    destruct (reconcileStatus_calm app w2 Hc2) as (w3 & Hst & Hc3).
    { rewrite Ha2, Ha1, Hs0, (Hwa _ _ Ha). done. }
    rewrite Hst. reflexivity. }
  split; [exact Hok|].
  pose proof (Reconcile_pass r req w) as Hp. rewrite Hok in Hp.
  by eapply pass_converges.
Qed.

Lemma calm_pass_succeeds_witness :
  fst (Reconcile Demo.reconciler Demo.req
         (Demo.world Demo.driftedStore [None; None; None]))
  = Returned (Result.mk false (30 * Second)) None.
Proof.
  refine (proj1 (calm_pass_succeeds Demo.reconciler Demo.req
                   (Demo.world Demo.driftedStore [None; None; None])
                   (Demo.webApp 2) "webapp.example.com/v1" "App"
                   driftedStore_wf _ _ eq_refl _)).
  - unfold calm. simpl. repeat constructor.
  - by vm_compute.
  - intros found Hf.
    assert (deployments (store (Demo.world Demo.driftedStore [None; None; None]))
              !! deploymentKey (Demo.webApp 2) = Some Demo.driftedDeployment) as Hf'
      by (by vm_compute).
    rewrite Hf' in Hf. injection Hf as <-. discriminate.
Defined.

(** ** The status after a pass *)





(** ** Reads that fail inside a step *)

(** X18. A Service fetch that fails with anything but absence, and a pod
    listing that fails, end their step with that error: nothing is created
    or written and the store is as it was. *)
Theorem read_error_aborts_step (r : AppReconciler) (app : App.t) (w : World)
    (err : Error) :
  (∀ meta,
      SetControllerReference app (Service.Meta (desiredService app)) (scheme r)
      = inr meta →
      fst (client.GetService (serviceKey app) w) = inl err →
      IsNotFound err = false →
      fst (reconcileService r app w) = Return Result.empty (Some err)
      ∧ store (snd (reconcileService r app w)) = store w
      ∧ trace (snd (reconcileService r app w)) = trace w)
  ∧ (fst (client.ListPods (App.Namespace app) (appLabel app) w) = inl err →
     fst (reconcileStatus app w) = Return Result.empty (Some err)
     ∧ store (snd (reconcileStatus app w)) = store w
     ∧ trace (snd (reconcileStatus app w)) = trace w).
Proof.
  split.
  - intros meta Hown Hget Hnf. unfold reconcileService. rewrite Hown.
    cbn [Service.Meta Service.Spec].
    rewrite (SetControllerReference_key _ _ _ _ Hown), desiredService_key.
    rewrite M_bind_run. unfold call at 1. revert Hget.
    destruct w as [st fs tr]. unfold client.GetService, client.nextFault. simpl.
    destruct fs as [|[f|] fs]; simpl;
      try destruct (services st !! serviceKey app); simpl;
      intros [= <-]; done.
  - intros Hlist. unfold reconcileStatus. rewrite M_bind_run. unfold call at 1.
    revert Hlist. destruct w as [st fs tr].
    unfold client.ListPods, client.nextFault. simpl.
    destruct fs as [|[f|] fs]; simpl; intros [= <-]; done.
Qed.

Lemma read_error_aborts_step_witness :
  fst (reconcileStatus (Demo.webApp 0)
         (Demo.world (Demo.freshStore 0) [Some ServerTimeout]))
  = Return Result.empty (Some (ErrStore ServerTimeout)).
Proof.
  exact (proj1 (proj2 (read_error_aborts_step Demo.reconciler (Demo.webApp 0)
                         (Demo.world (Demo.freshStore 0) [Some ServerTimeout])
                         (ErrStore ServerTimeout)) eq_refl)).
Defined.

(** ** When a pass has nothing to write *)

Lemma no_write_no_change (r : AppReconciler) (req : NamespacedName) (w : World) :
  issued w (snd (Reconcile r req w)) = [] →
  store (snd (Reconcile r req w)) = store w.
Proof. run_pass r req w; intros Hiss; done. Qed.

(** X19. For an App that exists in a well-formed store, a pass that returns
    without error has issued no write exactly when the store was already
    converged before it: both children stored and equal to the desired
    state under the policy, and the ready count already in the status. *)
Theorem quiet_iff_converged (r : AppReconciler) (req : NamespacedName) (w : World)
    (res : Result.t) (app : App.t) :
  wfStore (store w) →
  apps (store w) !! keyOf req = Some app →
  fst (Reconcile r req w) = Returned res None →
  (issued w (snd (Reconcile r req w)) = [] ↔ Converged app (store w)).
Proof.
  intros Hwf Ha Hok.
  pose proof (Reconcile_pass r req w) as Hp. split.
  - intros Hiss. rewrite Hok in Hp.
    rewrite <- (no_write_no_change _ _ _ Hiss).
    by eapply pass_converges.
  - intros Hc. destruct Hwf as (Hwa & _).
    destruct (converged_quiet _ _ _ _ _ _ (eq_sym (Hwa _ _ Ha)) Hc Hp) as [_ Ht].
    by apply issued_nothing.
Qed.

Lemma quiet_iff_converged_witness :
  ¬ Converged (Demo.webApp 2) Demo.driftedStore.
Proof.
  intros Hc.
  apply (quiet_iff_converged Demo.reconciler Demo.req
           (Demo.world Demo.driftedStore []) (Result.mk false (30 * Second))
           (Demo.webApp 2) driftedStore_wf ltac:(by vm_compute)
           ltac:(by vm_compute)) in Hc.
  by vm_compute in Hc.
Defined.
